(** * Password manager: session manager and password-recovery chain

    Shallow embedding of [src/js/patterns/Singleton.js] (SessionManager),
    of [src/js/patterns/Mediator.js] (UIMediator and the chain of
    responsibility: SecurityQuestionHandler, PasswordRecoveryManager),
    of the parts of [src/js/app.js] that drive them (registration form,
    recovery hash function, recovery calls), of the password generator
    and strength analyzer ([PasswordBuilder], [PasswordDirector],
    [PasswordStrengthAnalyzer]) and of the password check of the
    security monitor ([SecurityMonitor.checkPasswordStrength]).

    JavaScript strings are lists of UTF-16 code units ([list Z]). *)

From Stdlib Require Import ZArith String Ascii.
From stdpp Require Import base list gmap.

Open Scope Z_scope.

(* ------------------------------------------------------------------ *)
(** ** JavaScript strings and numbers *)

Abbreviation jsstr := (list Z).

(** Literal strings of the source, written as Rocq ASCII strings. *)
Fixpoint js (s : string) : jsstr :=
  match s with
  | EmptyString => []
  | String a r => Z.of_nat (nat_of_ascii a) :: js r
  end.

(** [ToInt32]: the result of [x & x], of [x << n] and of [x | 0]. *)
Definition toInt32 (x : Z) : Z :=
  let m := x mod 2 ^ 32 in
  if 2 ^ 31 <=? m then m - 2 ^ 32 else m.

(** Decimal digits of a non-negative integer; [fuel] is the bit length,
    an upper bound on the number of decimal digits. *)
Fixpoint dec_digits (fuel : nat) (n : Z) (acc : jsstr) : jsstr :=
  match fuel with
  | O => acc
  | S f =>
      let acc' := (48 + n mod 10) :: acc in
      if n <? 10 then acc' else dec_digits f (n / 10) acc'
  end.

(** [Number.prototype.toString()] on an integer-valued number. *)
Definition number_toString (z : Z) : jsstr :=
  let dec n := dec_digits (S (Pos.size_nat (Z.to_pos n))) n [] in
  if z <? 0 then 45 :: dec (- z) else dec z.

(** [btoa]: base64 encoding of a string of code units below 256 (the
    input here is always ASCII: digits, '-' and letters). *)
Definition b64_char (n : Z) : Z :=
  if n <? 26 then 65 + n
  else if n <? 52 then 97 + (n - 26)
  else if n <? 62 then 48 + (n - 52)
  else if n =? 62 then 43 else 47.

Fixpoint btoa (s : jsstr) : jsstr :=
  match s with
  | a :: b :: c :: rest =>
      let n := a * 65536 + b * 256 + c in
      b64_char (n / 262144) :: b64_char ((n / 4096) mod 64)
        :: b64_char ((n / 64) mod 64) :: b64_char (n mod 64) :: btoa rest
  | [a; b] =>
      let n := a * 65536 + b * 256 in
      [b64_char (n / 262144); b64_char ((n / 4096) mod 64);
       b64_char ((n / 64) mod 64); 61]
  | [a] =>
      let n := a * 65536 in
      [b64_char (n / 262144); b64_char ((n / 4096) mod 64); 61; 61]
  | [] => []
  end.

(** One iteration of the loop of [hashPassword]:
    [hash = ((hash << 5) - hash) + char; hash = hash & hash;] *)
Definition hash_step (hash : Z) (char : Z) : Z :=
  let h1 := (toInt32 (Z.shiftl (toInt32 hash) 5) - hash) + char in
  Z.land (toInt32 h1) (toInt32 h1).

(** [SessionManager.hashPassword] (Singleton.js, lines 254-262). *)
Definition hashPassword (password : jsstr) : jsstr :=
  let hash := fold_left hash_step password 0 in
  btoa (number_toString hash ++ number_toString (Z.of_nat (length password))
        ++ js "mypass_salt").

(** The arrow function passed to [recoveryManager.setHashFunction] in
    app.js (lines 204-212): the same fold as [hashPassword]. *)
Definition app_recovery_hash (str : jsstr) : jsstr :=
  let hash := fold_left hash_step str 0 in
  btoa (number_toString hash ++ number_toString (Z.of_nat (length str))
        ++ js "mypass_salt").

(** WhiteSpace and LineTerminator code units removed by
    [String.prototype.trim]. *)
Definition is_js_ws (c : Z) : bool :=
  (c =? 9) || (c =? 10) || (c =? 11) || (c =? 12) || (c =? 13)
  || (c =? 32) || (c =? 160) || (c =? 5760)
  || ((8192 <=? c) && (c <=? 8202))
  || (c =? 8232) || (c =? 8233) || (c =? 8239) || (c =? 8287)
  || (c =? 12288) || (c =? 65279).

Fixpoint trim_start (s : jsstr) : jsstr :=
  match s with
  | c :: r => if is_js_ws c then trim_start r else s
  | [] => []
  end.

(** [String.prototype.trim]. *)
Definition trim (s : jsstr) : jsstr := rev (trim_start (rev (trim_start s))).

(** [String.prototype.toLowerCase], as a case mapping applied code unit by
    code unit; the mapping [lower] is a parameter of the development
    (Unicode special casing, which changes lengths, is not modelled). *)
Definition toLowerCase (lower : Z -> Z) (s : jsstr) : jsstr := map lower s.

(** The ASCII part of the case mapping, used in concrete runs. *)
Definition ascii_lower (c : Z) : Z :=
  if (65 <=? c) && (c <=? 90) then c + 32 else c.

(* ------------------------------------------------------------------ *)
(** ** Users and the users object store (database.js) *)

Record Settings := mkSettings {
  s_autoLockMinutes : Z;
  s_clipboardClearMinutes : Z
}.

(** A security question: [{question, answer}]. *)
Record SecQ := mkSecQ { question : jsstr; answer : jsstr }.

Record User := mkUser {
  email : jsstr;
  masterPassword : jsstr;
  securityQuestions : list SecQ;
  settings : Settings;
  createdAt : jsstr
}.

(** The IndexedDB store [users], keyed by [email]: [saveUser] is [put]
    (insert or overwrite), [getUser] is [get]. *)
Abbreviation Store := (gmap jsstr User).

Inductive Error :=
  | EmailAlreadyRegistered   (* 'Email already registered' *)
  | UserNotFound             (* 'User not found' *)
  | InvalidPassword          (* 'Invalid password' *)
  | NoUserSession            (* 'No user session' *)
  | ThreeQuestionsRequired   (* 'Three security questions required' *)
  | HashFunctionNotSet.      (* 'Hash function not set' *)

(** A method either returns normally or throws. *)
Inductive Result (A : Type) := Ok (a : A) | Err (e : Error).
Arguments Ok {A} a.
Arguments Err {A} e.

(* ------------------------------------------------------------------ *)
(** ** Session state, host timers and clipboard *)

Record Session := mkSession {
  user : option User;
  isAuthenticated : bool;
  lastActivity : Z;
  autoLockMinutes : Z;
  lockTimer : option nat;
  clipboardTimer : option nat;
  clipboardClearMinutes : Z
}.

(** The callbacks scheduled by the session manager: the auto-lock check
    of [startAutoLockTimer] ([setInterval], every 10000 ms) and the
    clipboard clear of [copyToClipboard] ([setTimeout], due at
    [deadline]). *)
Inductive Timer := AutoLockCheck | ClipboardClear (deadline : Z).

#[global] Instance Timer_eq_dec : EqDecision Timer.
Proof. solve_decision. Defined.

(** The host: the active timers by handle (handles are positive and
    never reused), the system clipboard, and the number of
    ['session-locked'] events dispatched on [window]. *)
Record Host := mkHost {
  active : list (nat * Timer);
  nextHandle : nat;
  clipboard : jsstr;
  lockedEvents : nat
}.

Record World := mkWorld { store : Store; sess : Session; host : Host }.

Definition set_sess (w : World) (s : Session) : World :=
  mkWorld (store w) s (host w).
Definition set_host (w : World) (h : Host) : World :=
  mkWorld (store w) (sess w) h.

(** [setInterval] / [setTimeout]: register a callback, return its handle. *)
Definition host_schedule (t : Timer) (h : Host) : nat * Host :=
  (nextHandle h,
   mkHost (active h ++ [(nextHandle h, t)]) (S (nextHandle h))
     (clipboard h) (lockedEvents h)).

(** [clearInterval] / [clearTimeout]: drop the timer with this handle. *)
Definition host_clear (id : nat) (h : Host) : Host :=
  mkHost (filter (fun e => fst e <> id) (active h)) (nextHandle h)
    (clipboard h) (lockedEvents h).

Definition host_write_clipboard (text : jsstr) (h : Host) : Host :=
  mkHost (active h) (nextHandle h) text (lockedEvents h).

(** [new SessionManager()] at process start. *)
Definition initSession (now : Z) : Session :=
  mkSession None false now 1 None None 1.

Definition initWorld : World :=
  mkWorld ∅ (initSession 0) (mkHost [] 1 [] 0).

(* Field updates of the session. *)
Definition with_auth (b : bool) (s : Session) : Session :=
  mkSession (user s) b (lastActivity s) (autoLockMinutes s) (lockTimer s)
    (clipboardTimer s) (clipboardClearMinutes s).
Definition with_user (u : option User) (s : Session) : Session :=
  mkSession u (isAuthenticated s) (lastActivity s) (autoLockMinutes s)
    (lockTimer s) (clipboardTimer s) (clipboardClearMinutes s).
Definition with_lastActivity (t : Z) (s : Session) : Session :=
  mkSession (user s) (isAuthenticated s) t (autoLockMinutes s)
    (lockTimer s) (clipboardTimer s) (clipboardClearMinutes s).
Definition with_lockTimer (t : option nat) (s : Session) : Session :=
  mkSession (user s) (isAuthenticated s) (lastActivity s)
    (autoLockMinutes s) t (clipboardTimer s) (clipboardClearMinutes s).
Definition with_clipboardTimer (t : option nat) (s : Session) : Session :=
  mkSession (user s) (isAuthenticated s) (lastActivity s)
    (autoLockMinutes s) (lockTimer s) t (clipboardClearMinutes s).
Definition with_minutes (a c : Z) (s : Session) : Session :=
  mkSession (user s) (isAuthenticated s) (lastActivity s) a
    (lockTimer s) (clipboardTimer s) c.

(** JavaScript [x || d] on a number: [0] is falsy. *)
Definition or_default (x d : Z) : Z := if x =? 0 then d else x.

(** [stopAutoLockTimer] (lines 185-190). *)
Definition stopAutoLockTimer (w : World) : World :=
  match lockTimer (sess w) with
  | Some id =>
      mkWorld (store w) (with_lockTimer None (sess w)) (host_clear id (host w))
  | None => w
  end.

(** [startAutoLockTimer] (lines 170-180). *)
Definition startAutoLockTimer (w : World) : World :=
  let w1 := stopAutoLockTimer w in
  let (id, h) := host_schedule AutoLockCheck (host w1) in
  mkWorld (store w1) (with_lockTimer (Some id) (sess w1)) h.

(** [clearClipboard] (lines 212-218). *)
Definition clearClipboard (w : World) : World :=
  let h := host_write_clipboard [] (host w) in
  match clipboardTimer (sess w) with
  | Some id =>
      mkWorld (store w) (with_clipboardTimer None (sess w)) (host_clear id h)
  | None => mkWorld (store w) (sess w) h
  end.

(** [copyToClipboard(text)] at time [now] (lines 195-207). *)
Definition copyToClipboard (text : jsstr) (now : Z) (w : World) : World :=
  let h0 := host_write_clipboard text (host w) in
  let h1 := match clipboardTimer (sess w) with
            | Some id => host_clear id h0
            | None => h0
            end in
  let deadline := now + clipboardClearMinutes (sess w) * 60 * 1000 in
  let (id, h2) := host_schedule (ClipboardClear deadline) h1 in
  mkWorld (store w) (with_clipboardTimer (Some id) (sess w)) h2.

(* ------------------------------------------------------------------ *)
(** ** SessionManager methods (Singleton.js) *)

(** The answer digest stored by [register] (line 79):
    [this.hashPassword(q.answer.toLowerCase().trim())]. *)
Definition register_answer_digest (lower : Z -> Z) (a : jsstr) : jsstr :=
  hashPassword (trim (toLowerCase lower a)).

(** [register(email, masterPassword, securityQuestions)] (lines 69-95);
    [nowIso] is [new Date().toISOString()]. *)
Definition register (lower : Z -> Z) (email0 masterPassword0 : jsstr)
    (qs : list SecQ) (nowIso : jsstr) (st : Store) : Result bool * Store :=
  match st !! email0 with
  | Some _ => (Err EmailAlreadyRegistered, st)
  | None =>
      let hashedPassword := hashPassword masterPassword0 in
      let hashedQuestions :=
        map (fun q => mkSecQ (question q)
                        (register_answer_digest lower (answer q))) qs in
      let u := mkUser email0 hashedPassword hashedQuestions
                 (mkSettings 1 1) nowIso in
      (Ok true, <[email0 := u]> st)
  end.

(** [login(email, masterPassword)] at time [now] (lines 100-121). *)
Definition login (email0 masterPassword0 : jsstr) (now : Z) (w : World)
    : Result bool * World :=
  match store w !! email0 with
  | None => (Err UserNotFound, w)
  | Some u =>
      if decide (masterPassword u = hashPassword masterPassword0) then
        let s := mkSession (Some u) true now
                   (or_default (s_autoLockMinutes (settings u)) 5)
                   (lockTimer (sess w)) (clipboardTimer (sess w))
                   (or_default (s_clipboardClearMinutes (settings u)) 1) in
        (Ok true, startAutoLockTimer (set_sess w s))
      else (Err InvalidPassword, w)
  end.

(** [logout()] (lines 126-131). *)
Definition logout (w : World) : World :=
  let w1 := set_sess w (with_auth false (with_user None (sess w))) in
  clearClipboard (stopAutoLockTimer w1).

(** [lock()] (lines 136-139). *)
Definition lock (w : World) : World :=
  stopAutoLockTimer (set_sess w (with_auth false (sess w))).

(** [unlock(masterPassword)] at time [now] (lines 144-158). *)
Definition unlock (masterPassword0 : jsstr) (now : Z) (w : World)
    : Result bool * World :=
  match user (sess w) with
  | None => (Err NoUserSession, w)
  | Some u =>
      if decide (masterPassword u = hashPassword masterPassword0) then
        let s := with_lastActivity now (with_auth true (sess w)) in
        (Ok true, startAutoLockTimer (set_sess w s))
      else (Err InvalidPassword, w)
  end.

(** [updateActivity()] at time [now] (lines 163-165). *)
Definition updateActivity (now : Z) (w : World) : World :=
  set_sess w (with_lastActivity now (sess w)).

(** One run of the [setInterval] callback of [startAutoLockTimer] at time
    [now]: [(now - lastActivity) / 1000 / 60 >= autoLockMinutes]. *)
Definition autoLockTick (now : Z) (w : World) : World :=
  if autoLockMinutes (sess w) * 60000 <=? now - lastActivity (sess w) then
    let w1 := lock w in
    let h := host w1 in
    set_host w1 (mkHost (active h) (nextHandle h) (clipboard h)
                   (S (lockedEvents h)))
  else w.

(** The clipboard [setTimeout] with handle [id] fires: a one-shot timer
    leaves the active set, then its callback runs [clearClipboard()]. *)
Definition clipboardFire (id : nat) (w : World) : World :=
  clearClipboard (set_host w (host_clear id (host w))).

(** The argument of [updateSettings]: a partial settings object. *)
Record SettingsPatch := mkPatch {
  p_autoLockMinutes : option Z;
  p_clipboardClearMinutes : option Z
}.

Definition or_else (x : option Z) (d : Z) : Z :=
  match x with Some v => or_default v d | None => d end.

(** [updateSettings(settings)] (lines 223-231). *)
Definition updateSettings (p : SettingsPatch) (w : World) : World :=
  match user (sess w) with
  | None => w
  | Some u =>
      let st := settings u in
      let st' := mkSettings
                   (default (s_autoLockMinutes st) (p_autoLockMinutes p))
                   (default (s_clipboardClearMinutes st)
                      (p_clipboardClearMinutes p)) in
      let u' := mkUser (email u) (masterPassword u) (securityQuestions u)
                  st' (createdAt u) in
      let s := with_minutes (or_else (p_autoLockMinutes p)
                               (autoLockMinutes (sess w)))
                 (or_else (p_clipboardClearMinutes p)
                    (clipboardClearMinutes (sess w)))
                 (with_user (Some u') (sess w)) in
      mkWorld (<[email u := u']> (store w)) s (host w)
  end.

(** [updatePassword(email, newPassword)] (lines 243-249). *)
Definition updatePassword (email0 newPassword : jsstr) (st : Store)
    : Result unit * Store :=
  match st !! email0 with
  | Some u =>
      let u' := mkUser (email u) (hashPassword newPassword)
                  (securityQuestions u) (settings u) (createdAt u) in
      (Ok tt, <[email0 := u']> st)
  | None => (Ok tt, st)
  end.

(** Every operation the application can perform on the session manager,
    and every timer callback the host can run. *)
Inductive step : World -> World -> Prop :=
  | StRegister lower e pw qs iso w r st' :
      register lower e pw qs iso (store w) = (r, st') ->
      step w (mkWorld st' (sess w) (host w))
  | StLogin e pw now w r w' :
      login e pw now w = (r, w') -> step w w'
  | StLogout w : step w (logout w)
  | StLock w : step w (lock w)
  | StUnlock pw now w r w' :
      unlock pw now w = (r, w') -> step w w'
  | StUpdateActivity now w : step w (updateActivity now w)
  | StCopy text now w : step w (copyToClipboard text now w)
  | StClearClipboard w : step w (clearClipboard w)
  | StUpdateSettings p w : step w (updateSettings p w)
  | StUpdatePassword e pw w r st' :
      updatePassword e pw (store w) = (r, st') ->
      step w (mkWorld st' (sess w) (host w))
  | StAutoLockTick id now w :
      (id, AutoLockCheck) ∈ active (host w) ->
      step w (autoLockTick now w)
  | StClipboardFire id d w :
      (id, ClipboardClear d) ∈ active (host w) ->
      step w (clipboardFire id w).

Inductive reachable : World -> Prop :=
  | reach_init : reachable initWorld
  | reach_step w w' : reachable w -> step w w' -> reachable w'.

(** The active auto-lock intervals. *)
Definition autoLockTimers (h : Host) : list (nat * Timer) :=
  filter (fun e => snd e = AutoLockCheck) (active h).

(** The active clipboard-clear timeouts. *)
Definition clipboardTimers (h : Host) : list (nat * Timer) :=
  filter (fun e => snd e <> AutoLockCheck) (active h).

(* ------------------------------------------------------------------ *)
(** ** Password recovery: chain of responsibility (Mediator.js) *)

(** [SecurityQuestionHandler]: its question, the stored (hashed) answer,
    its 0-based [index] and the hash function it was built with. *)
Record Handler := mkHandler {
  hQuestion : jsstr;
  hashedAnswer : jsstr;
  index : nat;
  hHashFunction : jsstr -> jsstr
}.

(** A handler and its [successor]: [Last] when [successor] is [null]. *)
Inductive Chain :=
  | Last (h : Handler)
  | Link (h : Handler) (successor : Chain).

Fixpoint chain_handlers (c : Chain) : list Handler :=
  match c with
  | Last h => [h]
  | Link h n => h :: chain_handlers n
  end.

Definition chain_length (c : Chain) : nat := length (chain_handlers c).

(** [{success: true}] or [{success: false, failedAt}]. *)
Inductive ChainResult := Passed | FailedAt (failedAt : nat).

(** [PasswordRecoveryManager]. *)
Record RecoveryManager := mkRM {
  chain : option Chain;
  questions : list (nat * jsstr);
  attempts : Z;
  maxAttempts : Z;
  locked : bool;
  hashFunction : option (jsstr -> jsstr)
}.

(** [new PasswordRecoveryManager()] (lines 258-265). *)
Definition newRecoveryManager : RecoveryManager :=
  mkRM None [] 0 3 false None.

(** [setHashFunction(fn)]. *)
Definition setHashFunction (fn : jsstr -> jsstr) (m : RecoveryManager)
    : RecoveryManager :=
  mkRM (chain m) (questions m) (attempts m) (maxAttempts m) (locked m)
    (Some fn).

(** [initialize(securityQuestions)] (lines 278-323). The guard
    [securityQuestions.length < 3] holds exactly when the list has no
    three leading elements. *)
Definition initialize (qs : list SecQ) (m : RecoveryManager)
    : Result (list (nat * jsstr)) * RecoveryManager :=
  match qs with
  | q0 :: q1 :: q2 :: _ =>
      match hashFunction m with
      | None => (Err HashFunctionNotSet, m)
      | Some hf =>
          let qsOut := imap (fun i q => (i, question q)) qs in
          let handler1 := mkHandler (question q0) (answer q0) 0 hf in
          let handler2 := mkHandler (question q1) (answer q1) 1 hf in
          let handler3 := mkHandler (question q2) (answer q2) 2 hf in
          let c := Link handler1 (Link handler2 (Last handler3)) in
          (Ok qsOut, mkRM (Some c) qsOut 0 (maxAttempts m) false (Some hf))
      end
  | _ => (Err ThreeQuestionsRequired, m)
  end.

(** [reset()] (lines 357-362). *)
Definition reset (m : RecoveryManager) : RecoveryManager :=
  mkRM None [] 0 (maxAttempts m) false (hashFunction m).

(** The manager and the lockout-expiry timeouts it has scheduled
    ([setTimeout(() => { this.locked = false; this.attempts = 0; },
    15 * 60 * 1000)]), by deadline. No handle is kept, so none is ever
    cancelled. *)
Record RecWorld := mkRW { mgr : RecoveryManager; lockTimers : list Z }.

Definition lockoutMs : Z := 15 * 60 * 1000.

(** The messages [verify] returns. *)
Inductive VerifyResult :=
  | VerifySuccess                          (* {success: true} *)
  | TooManyAttemptsTryLater                (* 'Too many attempts. Try again later.' *)
  | RecoveryNotInitialized                 (* 'Recovery not initialized' *)
  | LockedFor15Minutes                     (* 'Too many attempts. Locked for 15 minutes.' *)
  | QuestionIncorrect (failedAt : nat) (left : Z). (* 'Question k incorrect. n attempts left.' *)

(** The lockout-expiry callback. *)
Definition expireLockout (m : RecoveryManager) : RecoveryManager :=
  mkRM (chain m) (questions m) 0 (maxAttempts m) false (hashFunction m).

(** The clock reaches [t]: every lockout timeout due by [t] runs (the
    callbacks are idempotent, so their order does not matter). *)
Definition advance (t : Z) (w : RecWorld) : RecWorld :=
  mkRW (if existsb (fun d => d <=? t) (lockTimers w)
        then expireLockout (mgr w) else mgr w)
       (filter (fun d => t < d) (lockTimers w)).

Section Recovery.

(** The case mapping of [toLowerCase]. *)
Variable lower : Z -> Z.

(** [SecurityQuestionHandler.verify(userAnswer)] (lines 225-231);
    [userAnswer] is [answers[this.index]], [None] when out of range
    ([undefined || ''] is ['']). *)
Definition sqVerify (h : Handler) (userAnswer : option jsstr) : bool :=
  let normalized := trim (toLowerCase lower (default [] userAnswer)) in
  bool_decide (hHashFunction h normalized = hashedAnswer h).

(** [handleRequest(answers)] (lines 236-250), together with the indices
    of the handlers whose [verify] ran, in order. *)
Fixpoint handleRequestTraced (c : Chain) (answers : list jsstr)
    : ChainResult * list nat :=
  match c with
  | Last h =>
      if negb (sqVerify h (answers !! index h))
      then (FailedAt (S (index h)), [index h])
      else (Passed, [index h])
  | Link h next =>
      if negb (sqVerify h (answers !! index h))
      then (FailedAt (S (index h)), [index h])
      else let (r, tr) := handleRequestTraced next answers in
           (r, index h :: tr)
  end.

Definition handleRequest (c : Chain) (answers : list jsstr) : ChainResult :=
  fst (handleRequestTraced c answers).

(** [verify(answers)] at time [now] (lines 328-351). *)
Definition verify (answers : list jsstr) (now : Z) (w : RecWorld)
    : VerifyResult * RecWorld :=
  let m := mgr w in
  if locked m then (TooManyAttemptsTryLater, w) else
  match chain m with
  | None => (RecoveryNotInitialized, w)
  | Some c =>
      match handleRequest c answers with
      | FailedAt k =>
          let a := attempts m + 1 in
          if maxAttempts m <=? a then
            (LockedFor15Minutes,
             mkRW (mkRM (chain m) (questions m) a (maxAttempts m) true
                     (hashFunction m))
                  (lockTimers w ++ [now + lockoutMs]))
          else
            (QuestionIncorrect k (maxAttempts m - a),
             mkRW (mkRM (chain m) (questions m) a (maxAttempts m) (locked m)
                     (hashFunction m))
                  (lockTimers w))
      | Passed => (VerifySuccess, w)
      end
  end.

End Recovery.

(** Initializing and resetting leave scheduled timeouts alone. *)
Definition initializeW (qs : list SecQ) (w : RecWorld)
    : Result (list (nat * jsstr)) * RecWorld :=
  let (r, m) := initialize qs (mgr w) in (r, mkRW m (lockTimers w)).

Definition resetW (w : RecWorld) : RecWorld :=
  mkRW (reset (mgr w)) (lockTimers w).

(** The manager of app.js: [new PasswordRecoveryManager()] followed by
    [setHashFunction] with the app's hash. *)
Definition appRecoveryWorld : RecWorld :=
  mkRW (setHashFunction app_recovery_hash newRecoveryManager) [].

(* ------------------------------------------------------------------ *)
(** ** Timer invariant of the session manager *)

(** Every active auto-lock interval is the one [lockTimer] holds, and
    there is at most one; every active clipboard timeout is the one
    [clipboardTimer] holds. *)
Definition Inv (w : World) : Prop :=
  (forall id, (id, AutoLockCheck) ∈ active (host w) ->
              lockTimer (sess w) = Some id) /\
  (length (autoLockTimers (host w)) <= 1)%nat /\
  (forall id d, (id, ClipboardClear d) ∈ active (host w) ->
                clipboardTimer (sess w) = Some id).

(* ------------------------------------------------------------------ *)
(** ** Concrete data for the runs below *)

Definition demoEmail : jsstr := js "a@x.com".

(** The questions as the registration form passes them to [register]. *)
Definition demoQuestions : list SecQ :=
  [mkSecQ (js "Q1") (js "ans1"); mkSecQ (js "Q2") (js "ans2");
   mkSecQ (js "Q3") (js "ans3")].

(** The stored questions: [register]'s digests of the answers. *)
Definition demoStored : list SecQ :=
  map (fun q => mkSecQ (question q)
                  (register_answer_digest ascii_lower (answer q)))
    demoQuestions.

Definition demoGood : list jsstr := [js " ANS1 "; js "Ans2"; js "ans3"].
Definition demoBad : list jsstr := [js "wrong"; js "ans2"; js "ans3"].

(** [startRecovery]: [initialize] on the app's manager. *)
Definition demoRec0 : RecWorld := snd (initializeW demoStored appRecoveryWorld).

Definition verifyW (answers : list jsstr) (now : Z) (w : RecWorld)
    : RecWorld := snd (verify ascii_lower answers now w).

(** Three wrong submissions at time 0: locked until 900000. *)
Definition demoLocked1 : RecWorld :=
  verifyW demoBad 0 (verifyW demoBad 0 (verifyW demoBad 0 demoRec0)).

(** At 60000 the user starts recovery again ([initialize]) and submits
    three wrong batches at 120000: the second lockout is due to end at
    120000 + 900000. *)
Definition demoLocked2 : RecWorld :=
  let w := snd (initializeW demoStored (advance 60000 demoLocked1)) in
  let w := advance 120000 w in
  verifyW demoBad 120000 (verifyW demoBad 120000 (verifyW demoBad 120000 w)).

(** The chain [initialize] builds from [demoStored]. *)
Definition demoChain : Chain :=
  Link (mkHandler (js "Q1") (register_answer_digest ascii_lower (js "ans1")) 0
          app_recovery_hash)
    (Link (mkHandler (js "Q2") (register_answer_digest ascii_lower (js "ans2")) 1
             app_recovery_hash)
       (Last (mkHandler (js "Q3") (register_answer_digest ascii_lower (js "ans3")) 2
                app_recovery_hash))).

(** Four stored pairs. *)
Definition demoStored4 : list SecQ :=
  demoStored ++ [mkSecQ (js "Q4") (register_answer_digest ascii_lower (js "ans4"))].

(** The session world after [register] of [demoEmail] with secret
    [secret], at process start. *)
Definition demoWorld (secret : jsstr) : World :=
  mkWorld (snd (register ascii_lower demoEmail secret demoQuestions []
                  (store initWorld)))
    (sess initWorld) (host initWorld).

(* ------------------------------------------------------------------ *)
(** ** Session state: accessors and the strong invariant *)

(** [checkAuth()] (lines 274-276). *)
Definition checkAuth (w : World) : bool :=
  isAuthenticated (sess w) && bool_decide (user (sess w) <> None).

(** Timer handles are distinct and below [nextHandle]; [lockTimer] holds
    exactly the active auto-lock check and [clipboardTimer] exactly the
    pending clipboard clear. *)
Definition HInv (w : World) : Prop :=
  NoDup (fst <$> active (host w)) /\
  (forall x, x ∈ active (host w) -> (fst x < nextHandle (host w))%nat) /\
  (forall id, lockTimer (sess w) = Some id <-> (id, AutoLockCheck) ∈ active (host w)) /\
  (forall id, clipboardTimer (sess w) = Some id <->
              exists d, (id, ClipboardClear d) ∈ active (host w)).

(** [HInv], and the session is authenticated exactly while an auto-lock
    check runs, and only with a bound user. *)
Definition SInv (w : World) : Prop :=
  HInv w /\
  (isAuthenticated (sess w) = true <-> lockTimer (sess w) <> None) /\
  (isAuthenticated (sess w) = true -> user (sess w) <> None).

(** A logged-in session: [demoWorld] followed by [login] at time 1000. *)
Definition demoLoggedIn : World :=
  snd (login demoEmail (js "Secret1!") 1000 (demoWorld (js "Secret1!"))).

(* ------------------------------------------------------------------ *)
(** ** The registration form (app.js, [handleRegister], lines 148-198) *)

(** The messages of the question checks of [handleRegister]. *)
Inductive FormError :=
  | CompleteQuestion (i : nat)   (* 'Complete security question i' *)
  | QuestionsNotUnique.          (* 'Each security question must be unique' *)

(** The loop [for (let i = 1; i <= 3; i++)] over the rows
    [(q{i}.value, a{i}.value)], with [selectedQuestions] (a [Set] of
    strings) as a list; it returns the [questions] array passed to
    [register], or the message of the [return] taken. *)
Fixpoint collectQuestions (i : nat) (rows : list (jsstr * jsstr))
    (selected : list jsstr) : FormError + list SecQ :=
  match rows with
  | [] => inr []
  | (q, a0) :: rest =>
      let a := trim a0 in
      if bool_decide (q = []) || bool_decide (a = []) then
        inl (CompleteQuestion i)
      else if bool_decide (q ∈ selected) then inl QuestionsNotUnique
      else match collectQuestions (S i) rest (selected ++ [q]) with
           | inl err => inl err
           | inr qs => inr (mkSecQ q a :: qs)
           end
  end.

Definition handleRegisterQuestions (r1 r2 r3 : jsstr * jsstr)
    : FormError + list SecQ :=
  collectQuestions 1 [r1; r2; r3] [].

(* ------------------------------------------------------------------ *)
(** ** Reachable states of the recovery manager of app.js *)

(** What app.js can do with [recoveryManager]: [startRecovery] calls
    [initialize], [handleRecovery] calls [verify], [resetRecoveryForm]
    calls [reset], and the clock runs lockout timeouts. *)
Inductive rec_step (lower : Z -> Z) : RecWorld -> RecWorld -> Prop :=
  | RecInitialize qs w r w' :
      initializeW qs w = (r, w') -> rec_step lower w w'
  | RecVerify answers now w :
      rec_step lower w (snd (verify lower answers now w))
  | RecReset w : rec_step lower w (resetW w)
  | RecAdvance t w : rec_step lower w (advance t w).

Inductive rec_reachable (lower : Z -> Z) : RecWorld -> Prop :=
  | rec_reach_init : rec_reachable lower appRecoveryWorld
  | rec_reach_step w w' :
      rec_reachable lower w -> rec_step lower w w' -> rec_reachable lower w'.

(* ------------------------------------------------------------------ *)
(** ** UIMediator (Mediator.js, lines 43-101) *)

(** The names [this.handlers[event]] finds on [Object.prototype] when
    [handlers] has no own property [event]. *)
Definition objectProtoKeys : list jsstr :=
  [js "constructor"; js "__defineGetter__"; js "__defineSetter__";
   js "hasOwnProperty"; js "__lookupGetter__"; js "__lookupSetter__";
   js "isPrototypeOf"; js "propertyIsEnumerable"; js "toString";
   js "valueOf"; js "__proto__"; js "toLocaleString"].

(** [this.handlers]: the own properties, each an array of handlers;
    a handler is identified by a number (JavaScript compares functions by
    identity). *)
Abbreviation Handlers := (gmap jsstr (list nat)).

(** What [this.handlers[event]] evaluates to: an own array, an inherited
    function or object (truthy, without [push], [forEach] or [filter]),
    or [undefined]. *)
Inductive Slot := Own (hs : list nat) | Inherited | Absent.

Definition slot (m : Handlers) (event : jsstr) : Slot :=
  match m !! event with
  | Some hs => Own hs
  | None => if bool_decide (event ∈ objectProtoKeys) then Inherited else Absent
  end.

(** [on(event, handler)]; [None] is the [TypeError] thrown by [push]. *)
Definition med_on (event : jsstr) (handler : nat) (m : Handlers)
    : option Handlers :=
  match slot m event with
  | Own hs => Some (<[event := hs ++ [handler]]> m)
  | Inherited => None
  | Absent => Some (<[event := [handler]]> m)
  end.

(** [off(event, handler)]; [None] is the [TypeError] thrown by [filter]. *)
Definition med_off (event : jsstr) (handler : nat) (m : Handlers)
    : option Handlers :=
  match slot m event with
  | Own hs => Some (<[event := filter (fun h => h <> handler) hs]> m)
  | Inherited => None
  | Absent => Some m
  end.

(** [notify(sender, event, data)]: the calls [handler(data, sender)] in
    order; [None] is the [TypeError] thrown by [forEach]. *)
Definition med_notify {Data : Type} (sender : option nat) (event : jsstr)
    (data : Data) (m : Handlers) : option (list (nat * Data * option nat)) :=
  match slot m event with
  | Own hs => Some (map (fun h => (h, data, sender)) hs)
  | Inherited => None
  | Absent => Some []
  end.

(** [emit(event, data)]: [notify(null, event, data)]. *)
Definition med_emit {Data : Type} (event : jsstr) (data : Data) (m : Handlers)
    : option (list (nat * Data * option nat)) :=
  med_notify None event data m.

(** What stays true of the app's recovery manager: the attempt limit is
    3; a locked manager has used all 3 attempts and has a lockout timeout
    pending; an unlocked one has used at most 2; the chain, when there is
    one, is the three handlers [initialize] builds, with indices 0, 1, 2. *)
Definition RecInv (w : RecWorld) : Prop :=
  maxAttempts (mgr w) = 3 /\
  (locked (mgr w) = true -> attempts (mgr w) = 3 /\ lockTimers w <> []) /\
  (locked (mgr w) = false -> 0 <= attempts (mgr w) <= 2) /\
  (chain (mgr w) = None \/
   exists h1 h2 h3, chain (mgr w) = Some (Link h1 (Link h2 (Last h3))) /\
     index h1 = 0%nat /\ index h2 = 1%nat /\ index h3 = 2%nat).

(** The [handlers] objects of a [UIMediator]: [{}] from the constructor,
    then any sequence of [on] and [off] calls that returned. *)
Inductive med_reach : Handlers -> Prop :=
  | med_reach_init : med_reach ∅
  | med_reach_on event handler m m' :
      med_reach m -> med_on event handler m = Some m' -> med_reach m'
  | med_reach_off event handler m m' :
      med_reach m -> med_off event handler m = Some m' -> med_reach m'.

(* ------------------------------------------------------------------ *)
(** ** Password strength ([src/unnamed/part_000], the Builder.js that
    app.js imports, lines 198-226; [src/unnamed/part_001], Observer.js,
    lines 106-126) *)

(** The character classes of the regular expressions, on code units
    (no [u] flag). *)
Definition is_upper (c : Z) : bool := (65 <=? c) && (c <=? 90).
Definition is_lower (c : Z) : bool := (97 <=? c) && (c <=? 122).
Definition is_digit (c : Z) : bool := (48 <=? c) && (c <=? 57).

(** [/[A-Z]/.test], [/[a-z]/.test], [/[0-9]/.test], [/[^A-Za-z0-9]/.test]. *)
Definition has_upper (s : jsstr) : bool := existsb is_upper s.
Definition has_lower (s : jsstr) : bool := existsb is_lower s.
Definition has_digit (s : jsstr) : bool := existsb is_digit s.
Definition has_other (s : jsstr) : bool :=
  existsb (fun c => negb (is_upper c || is_lower c || is_digit c)) s.

Inductive StrengthLevel := Weak | Fair | Good | Strong.

(** [{ score, level, feedback }]. *)
Record Analysis := mkAnalysis {
  score : Z;
  level : StrengthLevel;
  feedback : list jsstr
}.

(** [PasswordStrengthAnalyzer.analyze(password)]. *)
Definition analyze (password : jsstr) : Analysis :=
  let len := Z.of_nat (length password) in
  let '(score0, fb0) :=
    if 12 <=? len then (25, [])
    else if 8 <=? len then (15, [])
    else (0, [js "Use at least 8 characters"]) in
  let '(score1, fb1) :=
    if has_upper password then (score0 + 20, fb0)
    else (score0, fb0 ++ [js "Add uppercase letters"]) in
  let '(score2, fb2) :=
    if has_lower password then (score1 + 20, fb1)
    else (score1, fb1 ++ [js "Add lowercase letters"]) in
  let '(score3, fb3) :=
    if has_digit password then (score2 + 15, fb2)
    else (score2, fb2 ++ [js "Add numbers"]) in
  let '(score4, fb4) :=
    if has_other password then (score3 + 20, fb3)
    else (score3, fb3 ++ [js "Add special characters"]) in
  let lvl :=
    if 80 <=? score4 then Strong
    else if 60 <=? score4 then Good
    else if 40 <=? score4 then Fair
    else Weak in
  mkAnalysis score4 lvl fb4.

(** The score of [SecurityMonitor.checkPasswordStrength(login)] for
    [password = login.password || ''] (a missing password is the empty
    string). *)
Definition monitorScore (password : jsstr) : Z :=
  let len := Z.of_nat (length password) in
  (if 8 <=? len then 25 else 0) + (if has_upper password then 25 else 0)
  + (if has_lower password then 25 else 0)
  + (if has_digit password then 15 else 0)
  + (if has_other password then 10 else 0).

(** Whether [checkPasswordStrength] pushes (and broadcasts) a
    [WEAK_PASSWORD] notification. *)
Definition checkPasswordStrength (password : jsstr) : bool :=
  monitorScore password <? 50.

(* ------------------------------------------------------------------ *)
(** ** Password generator ([src/unnamed/part_000], lines 48-193) *)

(** A JavaScript number as [this.length] can hold it: the integer that
    [parseInt] returned, or [NaN]. *)
Inductive JsNum := Num (z : Z) | NaN.

(** [Math.max(4, Math.min(64, length))]: [NaN] stays [NaN]. *)
Definition clampLength (n : JsNum) : JsNum :=
  match n with Num z => Num (Z.max 4 (Z.min 64 z)) | NaN => NaN end.

(** The fields of a [PasswordBuilder]. *)
Record PasswordBuilder := mkPB {
  pb_length : JsNum;
  includeUppercase : bool;
  includeLowercase : bool;
  includeNumbers : bool;
  includeSymbols : bool
}.

(** [reset()]. *)
Definition pb_reset (b : PasswordBuilder) : PasswordBuilder :=
  mkPB (Num 16) true true true true.

(** [setLength(length)], [withUppercase(include)], ... *)
Definition setLength (n : JsNum) (b : PasswordBuilder) : PasswordBuilder :=
  mkPB (clampLength n) (includeUppercase b) (includeLowercase b)
    (includeNumbers b) (includeSymbols b).
Definition withUppercase (inc : bool) (b : PasswordBuilder) : PasswordBuilder :=
  mkPB (pb_length b) inc (includeLowercase b) (includeNumbers b) (includeSymbols b).
Definition withLowercase (inc : bool) (b : PasswordBuilder) : PasswordBuilder :=
  mkPB (pb_length b) (includeUppercase b) inc (includeNumbers b) (includeSymbols b).
Definition withNumbers (inc : bool) (b : PasswordBuilder) : PasswordBuilder :=
  mkPB (pb_length b) (includeUppercase b) (includeLowercase b) inc (includeSymbols b).
Definition withSymbols (inc : bool) (b : PasswordBuilder) : PasswordBuilder :=
  mkPB (pb_length b) (includeUppercase b) (includeLowercase b) (includeNumbers b) inc.

Definition upperChars : jsstr := js "ABCDEFGHIJKLMNOPQRSTUVWXYZ".
Definition lowerChars : jsstr := js "abcdefghijklmnopqrstuvwxyz".
Definition numChars : jsstr := js "0123456789".
Definition symbolChars : jsstr := js "!@#$%^&*()_+-=[]{}|;:,.<>?".

(** [crypto.getRandomValues]: the [n]-th 32-bit value drawn is [rng n];
    [pos] counts the values drawn so far. *)
Abbreviation Rng := (nat -> Z).

(** [randomChar(str)]: [str[array[0] % str.length]]. *)
Definition randomChar (rng : Rng) (str : jsstr) (pos : nat) : Z * nat :=
  (nth (Z.to_nat (rng pos mod Z.of_nat (length str))) str 0, S pos).

(** [[arr[i], arr[j]] = [arr[j], arr[i]]]: [arr[i]] is assigned first. *)
Definition swap (arr : jsstr) (i j : nat) : jsstr :=
  let ai := nth i arr 0 in
  let aj := nth j arr 0 in
  <[j := ai]> (<[i := aj]> arr).

(** The loop of [shuffle] from index [i] down to 1. *)
Fixpoint shuffle_loop (rng : Rng) (i : nat) (arr : jsstr) (pos : nat)
    : jsstr * nat :=
  match i with
  | O => (arr, pos)
  | S k =>
      let j := Z.to_nat (rng pos mod Z.of_nat (S i)) in
      shuffle_loop rng k (swap arr i j) (S pos)
  end.

(** [shuffle(str)]: a Fisher-Yates pass over the code units. *)
Definition shuffle (rng : Rng) (str : jsstr) (pos : nat) : jsstr * nat :=
  shuffle_loop rng (length str - 1) str pos.

(** One [if (this.includeX) { charset += X; required.push(...); }]. *)
Definition addClass (rng : Rng) (inc : bool) (chars : jsstr)
    (st : jsstr * jsstr * nat) : jsstr * jsstr * nat :=
  if inc then
    let '(charset, required, pos) := st in
    let (c, pos') := randomChar rng chars pos in
    (charset ++ chars, required ++ [c], pos')
  else st.

(** The filling loop: [n] characters drawn from [charset], appended. *)
Fixpoint randomChars (rng : Rng) (n : nat) (charset : jsstr) (pos : nat)
    : jsstr * nat :=
  match n with
  | O => ([], pos)
  | S k =>
      let (c, pos1) := randomChar rng charset pos in
      let (rest, pos2) := randomChars rng k charset pos1 in
      (c :: rest, pos2)
  end.

(** Iterations of [for (let i = 0; i < this.length - required.length; i++)]. *)
Definition fillCount (n : JsNum) (k : nat) : nat :=
  match n with Num z => Z.to_nat (z - Z.of_nat k) | NaN => O end.

(** [getResult()]. *)
Definition getResult (rng : Rng) (b : PasswordBuilder) (pos : nat)
    : jsstr * nat :=
  let st := addClass rng (includeUppercase b) upperChars ([], [], pos) in
  let st := addClass rng (includeLowercase b) lowerChars st in
  let st := addClass rng (includeNumbers b) numChars st in
  let '(charset, required, pos) := addClass rng (includeSymbols b) symbolChars st in
  let charset := match charset with [] => lowerChars | _ => charset end in
  let (password, pos) := randomChars rng (fillCount (pb_length b) (length required))
                           charset pos in
  shuffle rng (password ++ required) pos.

(** The [config] object of [construct]; [None] is [undefined]. *)
Record GenConfig := mkGenConfig {
  cfg_length : option JsNum;
  cfg_uppercase : option bool;
  cfg_lowercase : option bool;
  cfg_numbers : option bool;
  cfg_symbols : option bool
}.

Definition apply_opt {A} (f : A -> PasswordBuilder -> PasswordBuilder)
    (o : option A) (b : PasswordBuilder) : PasswordBuilder :=
  match o with Some v => f v b | None => b end.

(** [PasswordDirector.construct(config)] with the director's builder;
    [None] is the error 'Builder not set'. It returns the builder's new
    fields, the password and the values drawn. *)
Definition construct (rng : Rng) (builder : option PasswordBuilder)
    (config : GenConfig) (pos : nat) : option (PasswordBuilder * jsstr * nat) :=
  match builder with
  | None => None
  | Some b =>
      let b := pb_reset b in
      let b := apply_opt setLength (cfg_length config) b in
      let b := apply_opt withUppercase (cfg_uppercase config) b in
      let b := apply_opt withLowercase (cfg_lowercase config) b in
      let b := apply_opt withNumbers (cfg_numbers config) b in
      let b := apply_opt withSymbols (cfg_symbols config) b in
      let (password, pos') := getResult rng b pos in
      Some (b, password, pos')
  end.

(* ================================================================== *)
(** * Session timers *)

Section TimerFacts.

Lemma length_filter_filter {A} (P Q : A -> Prop)
    `{!forall x, Decision (P x)} `{!forall x, Decision (Q x)} (l : list A) :
  (length (filter P (filter Q l)) <= length (filter P l))%nat.
Proof.
  induction l as [|x l IH]; [done|].
  rewrite (filter_cons Q). destruct (decide (Q x)).
  - rewrite !(filter_cons P). destruct (decide (P x)); simpl; lia.
  - rewrite (filter_cons P). destruct (decide (P x)); simpl; lia.
Qed.

Lemma elem_of_host_clear x id h :
  x ∈ active (host_clear id h) <-> x ∈ active h /\ fst x <> id.
Proof. unfold host_clear. simpl. rewrite list_elem_of_filter. tauto. Qed.

Lemma autoLockTimers_nil h :
  (forall id, (id, AutoLockCheck) ∉ active h) -> autoLockTimers h = [].
Proof.
  unfold autoLockTimers. induction (active h) as [|[id t] l IH]; intros Hn;
    [done|].
  rewrite filter_cons. destruct (decide _) as [Ht|Ht]; simpl in Ht.
  - subst. exfalso. apply (Hn id). set_solver.
  - apply IH. intros id' Hin. apply (Hn id'). set_solver.
Qed.

(** Dropping timers and changing neither timer field keeps [Inv]. *)
Lemma inv_filter w w' (Q : nat * Timer -> Prop) `{!forall x, Decision (Q x)} :
  Inv w -> active (host w') = filter Q (active (host w)) ->
  lockTimer (sess w') = lockTimer (sess w) ->
  clipboardTimer (sess w') = clipboardTimer (sess w) -> Inv w'.
Proof.
  intros (H1 & H2 & H3) Ha Hl Hc. unfold Inv, autoLockTimers in *.
  rewrite Ha, Hl, Hc. split; [|split].
  - intros id Hin. apply list_elem_of_filter in Hin. apply H1, Hin.
  - eapply Nat.le_trans; [apply length_filter_filter|exact H2].
  - intros id d Hin. apply list_elem_of_filter in Hin. eapply H3, Hin.
Qed.

Lemma inv_same w w' :
  Inv w -> active (host w') = active (host w) ->
  lockTimer (sess w') = lockTimer (sess w) ->
  clipboardTimer (sess w') = clipboardTimer (sess w) -> Inv w'.
Proof.
  intros (H1 & H2 & H3) Ha Hl Hc. unfold Inv, autoLockTimers in *.
  rewrite Ha, Hl, Hc. auto.
Qed.

Lemma stop_spec w :
  Inv w ->
  Inv (stopAutoLockTimer w) /\ autoLockTimers (host (stopAutoLockTimer w)) = [] /\
  lockTimer (sess (stopAutoLockTimer w)) = None /\
  clipboardTimer (sess (stopAutoLockTimer w)) = clipboardTimer (sess w).
Proof.
  intros HI. pose proof HI as (H1 & H2 & H3).
  assert (Hnone : forall id, (id, AutoLockCheck) ∈ active (host (stopAutoLockTimer w)) -> False).
  { intros id Hin. unfold stopAutoLockTimer in Hin.
    destruct (lockTimer (sess w)) as [l|] eqn:El; simpl in Hin.
    - apply elem_of_host_clear in Hin as [Hin Hne]. simpl in Hne.
      apply H1 in Hin. congruence.
    - apply H1 in Hin. congruence. }
  assert (Hnil : autoLockTimers (host (stopAutoLockTimer w)) = []).
  { apply autoLockTimers_nil. intros id Hin. by apply (Hnone id). }
  split; [|split; [exact Hnil|]].
  - split; [|split].
    + intros id Hin. exfalso. by apply (Hnone id).
    + rewrite Hnil. simpl. lia.
    + intros id d Hin. unfold stopAutoLockTimer in *.
      destruct (lockTimer (sess w)) eqn:El; simpl in *.
      * apply elem_of_host_clear in Hin as [Hin _]. by eapply H3.
      * by eapply H3.
  - unfold stopAutoLockTimer. destruct (lockTimer (sess w)) eqn:E; simpl; auto.
Qed.

Lemma start_spec w :
  Inv w ->
  Inv (startAutoLockTimer w) /\
  exists id, autoLockTimers (host (startAutoLockTimer w)) = [(id, AutoLockCheck)] /\
             lockTimer (sess (startAutoLockTimer w)) = Some id.
Proof.
  intros HI. destruct (stop_spec w HI) as ((H1 & H2 & H3) & Hnil & Hl & Hc).
  unfold startAutoLockTimer. set (w1 := stopAutoLockTimer w) in *. simpl.
  assert (Hno : forall id, (id, AutoLockCheck) ∉ active (host w1)).
  { intros id Hin. unfold autoLockTimers in Hnil.
    eapply filter_nil_not_elem_of; [exact Hnil| |exact Hin]. done. }
  assert (Hal : autoLockTimers (mkHost (active (host w1) ++
                  [(nextHandle (host w1), AutoLockCheck)])
                  (S (nextHandle (host w1))) (clipboard (host w1))
                  (lockedEvents (host w1)))
                = [(nextHandle (host w1), AutoLockCheck)]).
  { unfold autoLockTimers in *. simpl. rewrite filter_app, Hnil.
    rewrite filter_cons_True by done. by rewrite filter_nil. }
  split; [|eexists; split; [exact Hal|reflexivity]].
  unfold Inv. simpl. split; [|split].
  - intros id Hin. apply elem_of_app in Hin as [Hin|Hin].
    + exfalso. by eapply Hno.
    + apply list_elem_of_singleton in Hin. by injection Hin as ->.
  - rewrite Hal. simpl. lia.
  - intros id d Hin. apply elem_of_app in Hin as [Hin|Hin].
    + by eapply H3.
    + apply list_elem_of_singleton in Hin. discriminate.
Qed.

Lemma clipboardTimers_nil h :
  (forall id d, (id, ClipboardClear d) ∉ active h) -> clipboardTimers h = [].
Proof.
  unfold clipboardTimers. induction (active h) as [|[id t] l IH]; intros Hn;
    [done|].
  rewrite filter_cons. destruct (decide _) as [Ht|Ht]; simpl in Ht.
  - destruct t as [|d]; [done|]. exfalso. apply (Hn id d). set_solver.
  - apply IH. intros id' d Hin. apply (Hn id' d). set_solver.
Qed.

Lemma clear_spec w :
  Inv w ->
  Inv (clearClipboard w) /\ clipboardTimers (host (clearClipboard w)) = [] /\
  clipboardTimer (sess (clearClipboard w)) = None /\
  lockTimer (sess (clearClipboard w)) = lockTimer (sess w) /\
  (length (autoLockTimers (host (clearClipboard w)))
     <= length (autoLockTimers (host w)))%nat.
Proof.
  intros (H1 & H2 & H3).
  assert (Hno : forall id d,
            (id, ClipboardClear d) ∈ active (host (clearClipboard w)) -> False).
  { intros id d Hin. unfold clearClipboard in Hin.
    destruct (clipboardTimer (sess w)) as [c|] eqn:Ec; simpl in Hin.
    - apply elem_of_host_clear in Hin as [Hin Hne]. simpl in *.
      apply H3 in Hin. congruence.
    - apply H3 in Hin. congruence. }
  assert (Hlen : (length (autoLockTimers (host (clearClipboard w)))
                    <= length (autoLockTimers (host w)))%nat).
  { unfold clearClipboard, autoLockTimers.
    destruct (clipboardTimer (sess w)); simpl; [apply length_filter_filter|done]. }
  split; [|split; [|split; [|split; [|exact Hlen]]]].
  - split; [|split].
    + intros id Hin. unfold clearClipboard in *.
      destruct (clipboardTimer (sess w)); simpl in *.
      * apply elem_of_host_clear in Hin as [Hin _]. by apply H1.
      * by apply H1.
    + lia.
    + intros id d Hin. exfalso. by apply (Hno id d).
  - apply clipboardTimers_nil. intros id d Hin. by apply (Hno id d).
  - unfold clearClipboard. destruct (clipboardTimer (sess w)) eqn:E; simpl; auto.
  - unfold clearClipboard. destruct (clipboardTimer (sess w)); simpl; auto.
Qed.

Lemma copy_spec text now w : Inv w -> Inv (copyToClipboard text now w).
Proof.
  intros (H1 & H2 & H3). unfold copyToClipboard.
  destruct (clipboardTimer (sess w)) as [c|] eqn:Ec; unfold Inv; simpl.
  - split; [|split].
    + intros id Hin. apply elem_of_app in Hin as [Hin|Hin].
      * apply elem_of_host_clear in Hin as [Hin _]. by apply H1.
      * apply list_elem_of_singleton in Hin. discriminate.
    + unfold autoLockTimers in *. simpl. rewrite filter_app.
      rewrite filter_cons_False by done. rewrite filter_nil, app_nil_r.
      eapply Nat.le_trans; [apply length_filter_filter|exact H2].
    + intros id d Hin. apply elem_of_app in Hin as [Hin|Hin].
      * apply elem_of_host_clear in Hin as [Hin Hne]. apply H3 in Hin.
        simpl in Hne. congruence.
      * apply list_elem_of_singleton in Hin. by injection Hin as -> _.
  - split; [|split].
    + intros id Hin. apply elem_of_app in Hin as [Hin|Hin].
      * by apply H1.
      * apply list_elem_of_singleton in Hin. discriminate.
    + unfold autoLockTimers in *. simpl. rewrite filter_app.
      rewrite filter_cons_False by done. by rewrite filter_nil, app_nil_r.
    + intros id d Hin. apply elem_of_app in Hin as [Hin|Hin].
      * apply H3 in Hin. congruence.
      * apply list_elem_of_singleton in Hin. by injection Hin as -> _.
Qed.

Lemma set_sess_inv w s :
  Inv w -> lockTimer s = lockTimer (sess w) ->
  clipboardTimer s = clipboardTimer (sess w) -> Inv (set_sess w s).
Proof. intros HI Hl Hc. by apply (inv_same w). Qed.

Lemma lock_inv w : Inv w -> Inv (lock w).
Proof.
  intros HI. apply stop_spec. by apply set_sess_inv.
Qed.

Lemma step_inv w w' : step w w' -> Inv w -> Inv w'.
Proof.
  intros Hs HI. destruct Hs as
    [lower e pw qs iso w r st' Hr | e pw now w r w' Hl | w | w
    | pw now w r w' Hu | now w | text now w | w | p w
    | e pw w r st' Hp | id now w Hin | id d w Hin].
  - by apply (inv_same w).
  - unfold login in Hl. destruct (store w !! e) as [u|];
      [|by injection Hl as _ <-].
    case_decide; [|by injection Hl as _ <-].
    injection Hl as _ <-. apply start_spec. by apply set_sess_inv.
  - unfold logout. apply clear_spec, stop_spec. by apply set_sess_inv.
  - by apply lock_inv.
  - unfold unlock in Hu. destruct (user (sess w)) as [u|];
      [|by injection Hu as _ <-].
    case_decide; [|by injection Hu as _ <-].
    injection Hu as _ <-. apply start_spec. by apply set_sess_inv.
  - by apply set_sess_inv.
  - by apply copy_spec.
  - by apply clear_spec.
  - unfold updateSettings. destruct (user (sess w)); [|done].
    by apply (inv_same w).
  - by apply (inv_same w).
  - unfold autoLockTick. destruct (_ <=? _); [|done].
    apply (inv_same (lock w)); [by apply lock_inv|done|done|done].
  - unfold clipboardFire. apply clear_spec.
    apply (inv_filter w _ (fun e => fst e <> id)); done.
Qed.

Lemma reachable_inv w : reachable w -> Inv w.
Proof.
  induction 1 as [|w w' _ IH Hs].
  - unfold Inv, autoLockTimers. simpl. split; [|split]; intros; set_solver || lia.
  - by apply (step_inv w).
Qed.

Lemma login_ok_spec e pw now w w' :
  Inv w -> login e pw now w = (Ok true, w') ->
  Inv w' /\ exists id, autoLockTimers (host w') = [(id, AutoLockCheck)] /\
                      lockTimer (sess w') = Some id.
Proof.
  intros HI Hl. unfold login in Hl. destruct (store w !! e) as [u|];
    [|discriminate]. case_decide; [|discriminate].
  injection Hl as <-. apply start_spec. by apply set_sess_inv.
Qed.

Lemma stop_auth w :
  isAuthenticated (sess (stopAutoLockTimer w)) = isAuthenticated (sess w).
Proof. unfold stopAutoLockTimer. by destruct (lockTimer (sess w)). Qed.

End TimerFacts.

(** C8. In every reachable session state at most one auto-lock interval
    is active. Starting one cancels the previous one: after two
    successful [login] calls exactly one interval is active, the one held
    in [lockTimer], and once the idle time reaches the configured
    threshold its run locks the session and dispatches one
    ['session-locked'] event, leaving no interval behind. [logout]
    cancels both the auto-lock interval and the clipboard-clear timer. *)
Theorem autolock_timer_unique (w : World) :
  reachable w ->
  (length (autoLockTimers (host w)) <= 1)%nat /\
  (forall e1 p1 t1 w1 e2 p2 t2 w2,
     login e1 p1 t1 w = (Ok true, w1) -> login e2 p2 t2 w1 = (Ok true, w2) ->
     exists id, autoLockTimers (host w2) = [(id, AutoLockCheck)] /\
       lockTimer (sess w2) = Some id /\
       forall now,
         autoLockMinutes (sess w2) * 60000 <= now - lastActivity (sess w2) ->
         lockedEvents (host (autoLockTick now w2)) = S (lockedEvents (host w2)) /\
         autoLockTimers (host (autoLockTick now w2)) = [] /\
         isAuthenticated (sess (autoLockTick now w2)) = false) /\
  autoLockTimers (host (logout w)) = [] /\
  clipboardTimers (host (logout w)) = [] /\
  lockTimer (sess (logout w)) = None /\
  clipboardTimer (sess (logout w)) = None.
Proof.
  intros Hr. pose proof (reachable_inv w Hr) as HI.
  split; [apply HI|]. split.
  - intros e1 p1 t1 w1 e2 p2 t2 w2 Hl1 Hl2.
    destruct (login_ok_spec _ _ _ _ _ HI Hl1) as [HI1 _].
    destruct (login_ok_spec _ _ _ _ _ HI1 Hl2) as [HI2 (id & Hal & Hlt)].
    exists id. split; [done|]. split; [done|].
    intros now Hnow. unfold autoLockTick.
    replace (autoLockMinutes (sess w2) * 60000 <=? now - lastActivity (sess w2))
      with true by lia.
    simpl. unfold lock.
    destruct (stop_spec (set_sess w2 (with_auth false (sess w2))))
      as (_ & Hnil & _); [by apply set_sess_inv|].
    split; [|split].
    + unfold stopAutoLockTimer. simpl. rewrite Hlt. done.
    + exact Hnil.
    + rewrite stop_auth. done.
  - unfold logout.
    assert (HI1 : Inv (set_sess w (with_auth false (with_user None (sess w)))))
      by (by apply set_sess_inv).
    destruct (stop_spec _ HI1) as (HI2 & Hnil & Hlt & _).
    destruct (clear_spec _ HI2) as (_ & Hc & Hct & Hlt' & Hlen).
    split; [|split; [exact Hc|split; [rewrite Hlt'; exact Hlt|exact Hct]]].
    rewrite Hnil in Hlen. simpl in Hlen. apply length_zero_iff_nil. lia.
Qed.

Lemma autolock_timer_unique_witness :
  reachable (demoWorld (js "Secret1!")) /\
  exists id,
    autoLockTimers (host (snd (login demoEmail (js "Secret1!") 2000
      (snd (login demoEmail (js "Secret1!") 1000 (demoWorld (js "Secret1!")))))))
    = [(id, AutoLockCheck)].
Proof.
  assert (Hr : reachable (demoWorld (js "Secret1!"))).
  { eapply reach_step; [apply reach_init|].
    eapply StRegister. reflexivity. }
  split; [exact Hr|].
  destruct (proj1 (proj2 (autolock_timer_unique _ Hr))
              demoEmail (js "Secret1!") 1000
              (snd (login demoEmail (js "Secret1!") 1000 (demoWorld (js "Secret1!"))))
              demoEmail (js "Secret1!") 2000
              (snd (login demoEmail (js "Secret1!") 2000
                 (snd (login demoEmail (js "Secret1!") 1000 (demoWorld (js "Secret1!")))))))
    as (id & Hal & _); [vm_compute; reflexivity|vm_compute; reflexivity|].
  exists id. exact Hal.
Defined.

(* ================================================================== *)
(** * Registration, login and the credential store *)

(** C3 (counterexample). The digest is a 32-bit polynomial fold, so two
    distinct secrets can share it: after registering with "Aa", [login]
    with "BB" succeeds. *)
Lemma login_accepts_other_secret :
  js "BB" <> js "Aa" /\
  fst (login demoEmail (js "BB") 0 (demoWorld (js "Aa"))) = Ok true.
Proof. split; [discriminate|vm_compute; reflexivity]. Qed.

(** C3 (amended). After a successful [register], [login] with the
    registered secret succeeds; [login] with a secret [s] fails with
    'Invalid password' exactly when [hashPassword s] differs from the
    digest of the registered secret, and succeeds otherwise. *)
Theorem login_after_register (lower : Z -> Z) (e pw : jsstr) (qs : list SecQ)
    (iso : jsstr) (w : World) (st' : Store) :
  register lower e pw qs iso (store w) = (Ok true, st') ->
  forall (now : Z) (s : jsstr),
    (exists w'', login e pw now (mkWorld st' (sess w) (host w)) = (Ok true, w'')) /\
    (fst (login e s now (mkWorld st' (sess w) (host w))) = Err InvalidPassword <->
       hashPassword s <> hashPassword pw) /\
    (fst (login e s now (mkWorld st' (sess w) (host w))) = Ok true <->
       hashPassword s = hashPassword pw).
Proof.
  intros Hr now s. unfold register in Hr.
  destruct (store w !! e); [discriminate|]. injection Hr as <-.
  unfold login. simpl. rewrite lookup_insert_eq. simpl.
  split; [|split].
  - rewrite decide_True by done. eexists. reflexivity.
  - case_decide as Hd; simpl; split; intros H; try discriminate; congruence.
  - case_decide as Hd; simpl; split; intros H; try discriminate; congruence.
Qed.

Lemma login_after_register_witness :
  register ascii_lower demoEmail (js "Secret1!") demoQuestions []
    (store initWorld) =
  (Ok true, store (demoWorld (js "Secret1!"))) /\
  exists w'', login demoEmail (js "Secret1!") 0
                (mkWorld (store (demoWorld (js "Secret1!"))) (sess initWorld)
                   (host initWorld)) = (Ok true, w'').
Proof.
  split; [reflexivity|].
  destruct (login_after_register ascii_lower demoEmail (js "Secret1!")
              demoQuestions [] initWorld (store (demoWorld (js "Secret1!")))
              ltac:(reflexivity) 0 (js "Secret1!")) as [Hok _].
  exact Hok.
Defined.

(** C4 (counterexample). [register] does not check the questions: with
    no questions at all, or with three copies of one question, it
    succeeds and persists the account. *)
Lemma register_accepts_bad_questions :
  fst (register ascii_lower demoEmail (js "Secret1!") [] [] ∅) = Ok true /\
  is_Some (snd (register ascii_lower demoEmail (js "Secret1!") [] [] ∅)
             !! demoEmail) /\
  fst (register ascii_lower demoEmail (js "Secret1!")
         [mkSecQ (js "Q1") (js "a"); mkSecQ (js "Q1") (js "b");
          mkSecQ (js "Q1") (js "c")] [] ∅) = Ok true.
Proof. split; [reflexivity|split; [eexists; reflexivity|reflexivity]]. Qed.

(** C4 (amended). [register] performs no check on the questions: for an
    identifier not in the store it succeeds for any list of questions
    (fewer than 3, duplicated, or exactly 3 distinct) and persists an
    account holding the digested secret and one entry per question, in
    order, with the question text unchanged. *)
Theorem register_fresh_succeeds (lower : Z -> Z) (e pw : jsstr)
    (qs : list SecQ) (iso : jsstr) (st : Store) :
  st !! e = None ->
  exists u, register lower e pw qs iso st = (Ok true, <[e := u]> st) /\
    masterPassword u = hashPassword pw /\
    map question (securityQuestions u) = map question qs.
Proof.
  intros Hn. unfold register. rewrite Hn. eexists. split; [reflexivity|].
  split; [reflexivity|]. simpl. rewrite map_map. reflexivity.
Qed.

Lemma register_fresh_succeeds_witness :
  (∅ : Store) !! demoEmail = None /\
  exists u, register ascii_lower demoEmail (js "Secret1!") [] [] ∅
            = (Ok true, <[demoEmail := u]> ∅) /\
    masterPassword u = hashPassword (js "Secret1!") /\
    map question (securityQuestions u) = map question [].
Proof.
  split; [reflexivity|].
  apply register_fresh_succeeds. reflexivity.
Defined.

(** C9 (counterexample). [updateActivity] has no authentication guard:
    in the unauthenticated initial state it moves the idle timestamp. *)
Lemma updateActivity_moves_unauthenticated :
  isAuthenticated (sess initWorld) = false /\
  lastActivity (sess (updateActivity 5000 initWorld)) <>
    lastActivity (sess initWorld).
Proof. split; [reflexivity|simpl; lia]. Qed.

(** C9 (amended). [updateActivity] sets the idle timestamp to the
    current time whether or not the session is authenticated, and
    changes no other field of the session, the store or the host. *)
Theorem updateActivity_frame (now : Z) (w : World) :
  let w' := updateActivity now w in
  lastActivity (sess w') = now /\
  store w' = store w /\ host w' = host w /\
  user (sess w') = user (sess w) /\
  isAuthenticated (sess w') = isAuthenticated (sess w) /\
  autoLockMinutes (sess w') = autoLockMinutes (sess w) /\
  lockTimer (sess w') = lockTimer (sess w) /\
  clipboardTimer (sess w') = clipboardTimer (sess w) /\
  clipboardClearMinutes (sess w') = clipboardClearMinutes (sess w).
Proof. simpl. repeat split. Qed.

(** C10. [updatePassword] on an identifier absent from the store returns
    normally and leaves the store unchanged. *)
Theorem updatePassword_absent_noop (e pw : jsstr) (st : Store) :
  st !! e = None -> updatePassword e pw st = (Ok tt, st).
Proof. intros Hn. unfold updatePassword. by rewrite Hn. Qed.

Lemma updatePassword_absent_noop_witness :
  (∅ : Store) !! demoEmail = None /\
  updatePassword demoEmail (js "new") ∅ = (Ok tt, ∅).
Proof.
  split; [reflexivity|]. apply updatePassword_absent_noop. reflexivity.
Defined.

(* ================================================================== *)
(** * Answer normalization *)

Section Trim.

Lemma trim_start_all_ws (s : jsstr) :
  forallb is_js_ws s = true -> trim_start s = [].
Proof.
  induction s as [|c s IH]; simpl; [done|].
  intros H. apply andb_prop in H as [-> H]. by apply IH.
Qed.

Lemma trim_start_ws_app (l x : jsstr) :
  forallb is_js_ws l = true -> trim_start (l ++ x) = trim_start x.
Proof.
  induction l as [|c l IH]; simpl; [done|].
  intros H. apply andb_prop in H as [-> H]. by apply IH.
Qed.

Lemma trim_start_app_ws (x r : jsstr) :
  forallb is_js_ws r = true ->
  trim_start (x ++ r) =
    match trim_start x with [] => [] | y => y ++ r end.
Proof.
  intros Hr. induction x as [|c x IH]; simpl.
  - by apply trim_start_all_ws.
  - destruct (is_js_ws c); [exact IH|reflexivity].
Qed.

Lemma forallb_rev (s : jsstr) :
  forallb is_js_ws (rev s) = forallb is_js_ws s.
Proof.
  induction s as [|c s IH]; simpl; [done|].
  rewrite forallb_app, IH. simpl. by rewrite andb_true_r, andb_comm.
Qed.

(** Leading and trailing whitespace does not survive [trim]. *)
Lemma trim_pad (l x r : jsstr) :
  forallb is_js_ws l = true -> forallb is_js_ws r = true ->
  trim (l ++ x ++ r) = trim x.
Proof.
  intros Hl Hr. unfold trim.
  rewrite trim_start_ws_app by exact Hl. rewrite trim_start_app_ws by exact Hr.
  destruct (trim_start x) as [|c y]; [reflexivity|].
  rewrite rev_app_distr, trim_start_ws_app; [reflexivity|].
  by rewrite forallb_rev.
Qed.

Lemma forallb_map_ws (lower : Z -> Z) (s : jsstr) :
  (forall c, is_js_ws c = true -> is_js_ws (lower c) = true) ->
  forallb is_js_ws s = true -> forallb is_js_ws (map lower s) = true.
Proof.
  intros Hws. induction s as [|c s IH]; simpl; [done|].
  intros H. apply andb_prop in H as [Hc H]. by rewrite Hws, IH.
Qed.

Lemma normalize_pad (lower : Z -> Z) (l x r : jsstr) :
  (forall c, is_js_ws c = true -> is_js_ws (lower c) = true) ->
  forallb is_js_ws l = true -> forallb is_js_ws r = true ->
  trim (toLowerCase lower (l ++ x ++ r)) = trim (toLowerCase lower x).
Proof.
  intros Hws Hl Hr. unfold toLowerCase. rewrite !map_app.
  apply trim_pad; by apply forallb_map_ws.
Qed.

Lemma app_recovery_hash_eq (s : jsstr) : app_recovery_hash s = hashPassword s.
Proof. reflexivity. Qed.

Lemma ascii_lower_ws (c : Z) :
  is_js_ws c = true -> is_js_ws (ascii_lower c) = true.
Proof.
  intros H. unfold ascii_lower.
  destruct ((65 <=? c) && (c <=? 90)) eqn:E; [|exact H].
  exfalso. apply andb_prop in E as [E1 E2].
  apply Z.leb_le in E1. apply Z.leb_le in E2.
  unfold is_js_ws in H.
  repeat match goal with
         | H : (_ || _)%bool = true |- _ => apply orb_prop in H as [H|H]
         | H : (_ && _)%bool = true |- _ => apply andb_prop in H as [? ?]
         | H : (_ =? _) = true |- _ => apply Z.eqb_eq in H
         | H : (_ <=? _) = true |- _ => apply Z.leb_le in H
         end; lia.
Qed.

End Trim.

(** C5. Registration and recovery normalize answers the same way
    ([toLowerCase] then [trim]) and hash them with the same fold: if the
    answer [a'] given at recovery differs from the registered answer [a]
    only in letter case (their cores have the same lower-case form) and
    in leading or trailing whitespace, the digest computed by the
    handler for [a'] equals the digest [register] stored for [a], and
    the handler's verification succeeds. The case mapping only has to
    send whitespace to whitespace. *)
Theorem answer_normalization_roundtrip (lower : Z -> Z)
    (Hws : forall c, is_js_ws c = true -> is_js_ws (lower c) = true)
    (la core ra l core' r : jsstr) (h : Handler) :
  forallb is_js_ws la = true -> forallb is_js_ws ra = true ->
  forallb is_js_ws l = true -> forallb is_js_ws r = true ->
  toLowerCase lower core' = toLowerCase lower core ->
  hHashFunction h = app_recovery_hash ->
  hashedAnswer h = register_answer_digest lower (la ++ core ++ ra) ->
  app_recovery_hash (trim (toLowerCase lower (l ++ core' ++ r)))
    = register_answer_digest lower (la ++ core ++ ra) /\
  sqVerify lower h (Some (l ++ core' ++ r)) = true.
Proof.
  intros Hla Hra Hl Hr Hcase Hhf Hstored.
  assert (Hd : app_recovery_hash (trim (toLowerCase lower (l ++ core' ++ r)))
               = register_answer_digest lower (la ++ core ++ ra)).
  { unfold register_answer_digest. rewrite app_recovery_hash_eq.
    rewrite !normalize_pad by assumption. by rewrite Hcase. }
  split; [exact Hd|].
  unfold sqVerify. simpl. rewrite Hhf, Hstored, Hd.
  by apply bool_decide_eq_true.
Qed.

Lemma answer_normalization_roundtrip_witness :
  sqVerify ascii_lower
    (mkHandler (js "Q1") (register_answer_digest ascii_lower ([32] ++ js "ans1" ++ []))
       0 app_recovery_hash)
    (Some ([9] ++ js "ANS1" ++ [32; 32])) = true.
Proof.
  apply (answer_normalization_roundtrip ascii_lower ascii_lower_ws
           [32] (js "ans1") [] [9] (js "ANS1") [32; 32]); reflexivity.
Defined.

(* ================================================================== *)
(** * Password recovery *)

Section RecoveryProofs.

Variable lower : Z -> Z.

(** C1. On a chain built by [initialize], if the answer at position 1
    does not hash to the first stored digest, [handleRequest] reports
    [failedAt = 1] whatever the later answers are, and only the first
    handler's verification runs. *)
Theorem first_answer_wrong_fails_at_1 (qs : list SecQ) (m m' : RecoveryManager)
    (out : list (nat * jsstr)) (c : Chain) (hf : jsstr -> jsstr) (q0 : SecQ)
    (answers : list jsstr) :
  qs !! 0%nat = Some q0 -> hashFunction m = Some hf ->
  initialize qs m = (Ok out, m') -> chain m' = Some c ->
  hf (trim (toLowerCase lower (default [] (answers !! 0%nat)))) <> answer q0 ->
  handleRequestTraced lower c answers = (FailedAt 1, [0%nat]).
Proof.
  intros Hq0 Hhf Hinit Hc Hneq.
  destruct qs as [|a [|b [|d rest]]]; simpl in Hinit; try discriminate.
  rewrite Hhf in Hinit. injection Hinit as _ <-. simpl in Hc.
  injection Hc as <-. simpl in Hq0. injection Hq0 as ->.
  simpl. unfold sqVerify. simpl. rewrite bool_decide_eq_false_2 by exact Hneq.
  reflexivity.
Qed.

Lemma verify_passed_unchanged (answers : list jsstr) (now : Z) (w : RecWorld)
    (c : Chain) :
  locked (mgr w) = false -> chain (mgr w) = Some c ->
  handleRequest lower c answers = Passed ->
  verify lower answers now w = (VerifySuccess, w).
Proof.
  intros Hl Hc Hp. unfold verify. rewrite Hl, Hc, Hp. reflexivity.
Qed.

(** C7 (amended). On an unlocked, initialized manager, [verify] with
    answers that pass every step of the chain returns success and leaves
    the whole recovery state unchanged (chain, questions, attempt
    counter, lockout flag, scheduled timeouts). A second identical call
    therefore succeeds again: success is not limited to once per
    [initialize]. *)
Theorem verify_success_repeatable (answers : list jsstr) (now now' : Z)
    (w : RecWorld) (c : Chain) :
  locked (mgr w) = false -> chain (mgr w) = Some c ->
  handleRequest lower c answers = Passed ->
  verify lower answers now w = (VerifySuccess, w) /\
  verify lower answers now' (snd (verify lower answers now w))
    = (VerifySuccess, w).
Proof.
  intros Hl Hc Hp.
  rewrite (verify_passed_unchanged answers now w c) by assumption.
  split; [reflexivity|]. simpl. by apply (verify_passed_unchanged _ _ _ c).
Qed.

(** C6 (amended). [initialize] with fewer than 3 pairs throws 'Three
    security questions required' and leaves the manager unchanged, whether
    or not the hash function is set (the count is checked first). With
    3 or more pairs (and the hash function set) it builds a chain of
    exactly 3 handlers, from the first three pairs in order; further
    pairs get no handler. It returns, and stores, the index and question
    text of every pair (no digest), and resets the attempt counter and
    the lockout flag. *)
Theorem initialize_three_handlers (qs : list SecQ) (m : RecoveryManager) :
  ((length qs < 3)%nat -> initialize qs m = (Err ThreeQuestionsRequired, m)) /\
  (forall hf : jsstr -> jsstr, hashFunction m = Some hf ->
   (3 <= length qs)%nat ->
   exists c,
     initialize qs m =
       (Ok (imap (fun i q => (i, question q)) qs),
        mkRM (Some c) (imap (fun i q => (i, question q)) qs) 0
          (maxAttempts m) false (Some hf)) /\
     chain_length c = 3%nat /\
     map (fun h => (hQuestion h, hashedAnswer h, index h)) (chain_handlers c)
       = imap (fun i q => (question q, answer q, i)) (take 3 qs) /\
     Forall (fun h => hHashFunction h = hf) (chain_handlers c)).
Proof.
  split.
  - intros Hlt. destruct qs as [|a [|b [|d rest]]]; simpl in *;
      try reflexivity; lia.
  - intros hf Hhf Hge. destruct qs as [|a [|b [|d rest]]]; simpl in Hge; try lia.
    simpl. rewrite Hhf. eexists. split; [reflexivity|].
    split; [reflexivity|]. split; [reflexivity|].
    repeat constructor.
Qed.

End RecoveryProofs.

(** C1 (witness). *)
Lemma first_answer_wrong_fails_at_1_witness :
  handleRequestTraced ascii_lower demoChain demoBad = (FailedAt 1, [0%nat]).
Proof.
  apply (first_answer_wrong_fails_at_1 ascii_lower demoStored
           (mgr appRecoveryWorld) (mgr demoRec0)
           (imap (fun i q => (i, question q)) demoStored) demoChain
           app_recovery_hash (mkSecQ (js "Q1")
                                (register_answer_digest ascii_lower (js "ans1"))));
    try reflexivity.
  intros H. vm_compute in H. discriminate H.
Defined.

(** C7 (counterexample). After one [initialize], two successive
    [verify] calls with the correct answers both succeed. *)
Lemma verify_succeeds_twice :
  fst (verify ascii_lower demoGood 0 demoRec0) = VerifySuccess /\
  fst (verify ascii_lower demoGood 1000 (verifyW demoGood 0 demoRec0))
    = VerifySuccess.
Proof. split; vm_compute; reflexivity. Qed.

Lemma verify_success_repeatable_witness :
  verify ascii_lower demoGood 0 demoRec0 = (VerifySuccess, demoRec0) /\
  verify ascii_lower demoGood 1000 (snd (verify ascii_lower demoGood 0 demoRec0))
    = (VerifySuccess, demoRec0).
Proof.
  apply (verify_success_repeatable ascii_lower demoGood 0 1000 demoRec0 demoChain);
    [reflexivity|reflexivity|vm_compute; reflexivity].
Defined.

(** C6 (counterexample). With four pairs, [initialize] succeeds but the
    chain has three handlers, not four, and a wrong fourth answer is
    never checked. *)
Lemma initialize_four_pairs_three_handlers :
  exists c, chain (snd (initialize demoStored4 (mgr appRecoveryWorld))) = Some c /\
    chain_length c <> length demoStored4 /\
  fst (verify ascii_lower (demoGood ++ [js "wrong"]) 0
         (snd (initializeW demoStored4 appRecoveryWorld))) = VerifySuccess.
Proof.
  eexists. split; [reflexivity|]. split.
  - vm_compute. discriminate.
  - vm_compute. reflexivity.
Qed.

Lemma initialize_three_handlers_witness :
  exists c, chain (snd (initialize demoStored4 (mgr appRecoveryWorld))) = Some c /\
    chain_length c = 3%nat.
Proof.
  destruct (proj2 (initialize_three_handlers demoStored4 (mgr appRecoveryWorld))
                     app_recovery_hash eq_refl ltac:(vm_compute; lia))
    as (c & Hi & Hl & _).
  exists c. rewrite Hi. split; [reflexivity|exact Hl].
Defined.

(** Lockout from a manager with no timeout pending: three failed
    [verify] calls lock it with one timeout due [lockoutMs] after the
    third; before that time every [verify] answers 'Too many attempts.
    Try again later.' whatever the answers, and from that time on the
    lockout is lifted and the counter is back to 0. *)
Lemma lockout_without_stale_timers (lower : Z -> Z) (w : RecWorld) (c : Chain)
    (a1 a2 a3 answers : list jsstr) (k1 k2 k3 : nat) (t1 t2 t3 t : Z) :
  locked (mgr w) = false -> attempts (mgr w) = 0 -> maxAttempts (mgr w) = 3 ->
  lockTimers w = [] -> chain (mgr w) = Some c ->
  handleRequest lower c a1 = FailedAt k1 ->
  handleRequest lower c a2 = FailedAt k2 ->
  handleRequest lower c a3 = FailedAt k3 ->
  let w2 := snd (verify lower a2 t2 (snd (verify lower a1 t1 w))) in
  let w3 := snd (verify lower a3 t3 w2) in
  fst (verify lower a3 t3 w2) = LockedFor15Minutes /\
  locked (mgr w3) = true /\ lockTimers w3 = [t3 + lockoutMs] /\
  (t < t3 + lockoutMs ->
     advance t w3 = w3 /\ verify lower answers t w3 = (TooManyAttemptsTryLater, w3)) /\
  (t3 + lockoutMs <= t ->
     locked (mgr (advance t w3)) = false /\ attempts (mgr (advance t w3)) = 0 /\
     lockTimers (advance t w3) = []).
Proof.
  intros Hl Ha Hm Ht Hc H1 H2 H3.
  destruct w as [[ch qs att mx lk hfn] tm]; simpl in *; subst.
  unfold verify; simpl. rewrite H1; simpl. rewrite H2; simpl. rewrite H3; simpl.
  split; [reflexivity|]. split; [reflexivity|]. split; [reflexivity|].
  split.
  - intros Hlt. unfold advance; simpl.
    replace (t3 + lockoutMs <=? t) with false by lia. simpl.
    rewrite filter_cons_True by lia. rewrite filter_nil. split; reflexivity.
  - intros Hge. unfold advance; simpl.
    replace (t3 + lockoutMs <=? t) with true by lia. simpl.
    rewrite filter_cons_False by lia. rewrite filter_nil. auto.
Qed.

(** C2 (code bug). The lockout timeout is scheduled without keeping its
    handle, so it is never cancelled. A user locked out at time 0 who
    restarts recovery at 60000 ([initialize] clears the lock) and is
    locked out again at 120000 is unlocked at 900000 by the first
    lockout's timeout, 13 minutes into the second lockout rather than
    15: at 899999 the manager still refuses, at 900000 it accepts the
    correct answers. *)
Theorem lockout_cut_short_by_stale_timer :
  locked (mgr demoLocked2) = true /\
  lockTimers demoLocked2 = [900000; 120000 + lockoutMs] /\
  fst (verify ascii_lower demoGood 899999 (advance 899999 demoLocked2))
    = TooManyAttemptsTryLater /\
  900000 < 120000 + lockoutMs /\
  fst (verify ascii_lower demoGood 900000 (advance 900000 demoLocked2))
    = VerifySuccess.
Proof. vm_compute. repeat split; reflexivity. Qed.

(* ================================================================== *)
(** * Session manager: further properties *)

Section HostFacts.

Lemma nodup_fst_filter (P : nat * Timer -> Prop) `{!forall x, Decision (P x)}
    (l : list (nat * Timer)) :
  NoDup (fst <$> l) -> NoDup (fst <$> filter P l).
Proof.
  induction l as [|x l IH]; simpl; [done|].
  intros Hnd. apply NoDup_cons in Hnd as [Hx Hnd].
  rewrite filter_cons. destruct (decide (P x)); simpl; [|by apply IH].
  apply NoDup_cons. split; [|by apply IH].
  intros Hin. apply Hx. apply list_elem_of_fmap in Hin as (y & Hy & Hin).
  apply list_elem_of_filter in Hin as [_ Hin].
  apply list_elem_of_fmap. by exists y.
Qed.

Lemma nodup_fst_unique (l : list (nat * Timer)) id t1 t2 :
  NoDup (fst <$> l) -> (id, t1) ∈ l -> (id, t2) ∈ l -> t1 = t2.
Proof.
  induction l as [|x l IH]; simpl; [set_solver|].
  intros Hnd H1 H2. apply NoDup_cons in Hnd as [Hx Hnd].
  apply elem_of_cons in H1, H2.
  destruct H1 as [<-|H1], H2 as [H2|H2].
  - by injection H2.
  - exfalso. apply Hx. apply list_elem_of_fmap. by exists (id, t2).
  - subst x. exfalso. apply Hx. apply list_elem_of_fmap. by exists (id, t1).
  - by apply IH.
Qed.

Lemma nodup_fst_snoc (l : list (nat * Timer)) n t :
  NoDup (fst <$> l) -> (forall x, x ∈ l -> (fst x < n)%nat) ->
  NoDup (fst <$> (l ++ [(n, t)])).
Proof.
  intros Hnd Hlt. rewrite fmap_app. apply NoDup_app. split; [done|].
  split; [|simpl; apply NoDup_singleton].
  intros i Hi Hin. simpl in Hin. apply list_elem_of_singleton in Hin as ->.
  apply list_elem_of_fmap in Hi as (y & Hy & Hin). apply Hlt in Hin. lia.
Qed.

Lemma elem_of_schedule x t h :
  x ∈ active (snd (host_schedule t h)) <-> x ∈ active h \/ x = (nextHandle h, t).
Proof. simpl. rewrite elem_of_app, list_elem_of_singleton. done. Qed.

End HostFacts.

Section StrongTimerFacts.

Lemma filter_idem (P : nat * Timer -> Prop) `{!forall x, Decision (P x)}
    (l : list (nat * Timer)) :
  filter P (filter P l) = filter P l.
Proof.
  induction l as [|x l IH]; [done|].
  rewrite (filter_cons P x l). destruct (decide (P x)) as [Hp|Hp].
  - rewrite filter_cons_True by done. by rewrite IH.
  - exact IH.
Qed.

Lemma hinv_ext w w' :
  HInv w -> active (host w') = active (host w) ->
  nextHandle (host w') = nextHandle (host w) ->
  lockTimer (sess w') = lockTimer (sess w) ->
  clipboardTimer (sess w') = clipboardTimer (sess w) -> HInv w'.
Proof.
  intros (H1 & H2 & H3 & H4) Ha Hn Hl Hc. unfold HInv.
  rewrite Ha, Hn, Hl, Hc. auto.
Qed.

Lemma stop_sess w :
  sess (stopAutoLockTimer w) = with_lockTimer None (sess w).
Proof.
  destruct w as [st [u a la am lt ct cm] h]. unfold stopAutoLockTimer.
  by destruct lt.
Qed.

Lemma stop_hinv w : HInv w -> HInv (stopAutoLockTimer w).
Proof.
  intros HI. unfold stopAutoLockTimer.
  destruct (lockTimer (sess w)) as [l|] eqn:El; [|exact HI].
  destruct HI as (H1 & H2 & H3 & H4).
  assert (Hl : (l, AutoLockCheck) ∈ active (host w)) by (apply H3; done).
  unfold HInv; simpl. split; [|split; [|split]].
  - by apply nodup_fst_filter.
  - intros x Hx. apply list_elem_of_filter in Hx as [_ Hx]. by apply H2.
  - intros id. split; [done|]. intros Hin.
    apply list_elem_of_filter in Hin as [Hne Hin]. apply H3 in Hin.
    simpl in Hne. congruence.
  - intros id. rewrite H4. split.
    + intros [d Hd]. exists d. apply list_elem_of_filter. split; [|done].
      simpl. intros ->.
      pose proof (nodup_fst_unique _ _ _ _ H1 Hl Hd). discriminate.
    + intros [d Hd]. exists d. by apply list_elem_of_filter in Hd as [_ Hd].
Qed.

Lemma start_sess w :
  exists n, sess (startAutoLockTimer w) = with_lockTimer (Some n) (sess w).
Proof.
  destruct w as [st [u a la am lt ct cm] h].
  unfold startAutoLockTimer, stopAutoLockTimer. destruct lt; simpl;
    eexists; reflexivity.
Qed.

Lemma start_hinv w : HInv w -> HInv (startAutoLockTimer w).
Proof.
  intros HI. pose proof (stop_hinv w HI) as (H1 & H2 & H3 & H4).
  assert (Hn : lockTimer (sess (stopAutoLockTimer w)) = None)
    by (rewrite stop_sess; done).
  unfold startAutoLockTimer. set (w1 := stopAutoLockTimer w) in *.
  unfold HInv; simpl. split; [|split; [|split]].
  - by apply nodup_fst_snoc.
  - intros x Hx. apply elem_of_app in Hx as [Hx|Hx].
    + apply H2 in Hx. lia.
    + apply list_elem_of_singleton in Hx as ->. simpl. lia.
  - intros id. rewrite elem_of_app, list_elem_of_singleton. split.
    + intros [= <-]. by right.
    + intros [Hin|Heq].
      * apply H3 in Hin. congruence.
      * by injection Heq as ->.
  - intros id. rewrite H4. split.
    + intros [d Hd]. exists d. apply elem_of_app. by left.
    + intros [d Hd]. apply elem_of_app in Hd as [Hd|Hd].
      * by exists d.
      * apply list_elem_of_singleton in Hd. discriminate.
Qed.

(** Dropping the clipboard timeout held in [clipboardTimer]. *)
Lemma hinv_drop_clip w w' :
  HInv w ->
  active (host w') = match clipboardTimer (sess w) with
                     | Some id => filter (fun e => fst e <> id) (active (host w))
                     | None => active (host w)
                     end ->
  nextHandle (host w') = nextHandle (host w) ->
  lockTimer (sess w') = lockTimer (sess w) ->
  clipboardTimer (sess w') = None -> HInv w'.
Proof.
  intros (H1 & H2 & H3 & H4) Ha Hn Hl Hc. unfold HInv.
  rewrite Hn, Hl, Hc, Ha.
  destruct (clipboardTimer (sess w)) as [c|] eqn:Ec.
  - destruct (proj1 (H4 c) eq_refl) as [dc Hdc].
    split; [|split; [|split]].
    + by apply nodup_fst_filter.
    + intros x Hx. apply list_elem_of_filter in Hx as [_ Hx]. by apply H2.
    + intros id. rewrite H3. split.
      * intros Hin. apply list_elem_of_filter. split; [|done].
        simpl. intros ->.
        pose proof (nodup_fst_unique _ _ _ _ H1 Hin Hdc). discriminate.
      * intros Hin. by apply list_elem_of_filter in Hin as [_ Hin].
    + intros id. split; [done|]. intros [d Hd].
      apply list_elem_of_filter in Hd as [Hne Hd].
      assert (Hs : Some c = Some id) by (apply H4; by exists d).
      simpl in Hne. congruence.
  - split; [done|split; [done|split; [done|]]].
    intros id. split; [done|]. intros Hd. apply H4 in Hd. congruence.
Qed.

(** Scheduling a clipboard timeout when none is held. *)
Lemma hinv_sched_clip w w' d :
  HInv w -> clipboardTimer (sess w) = None ->
  active (host w') = active (host w) ++
                       [(nextHandle (host w), ClipboardClear d)] ->
  nextHandle (host w') = S (nextHandle (host w)) ->
  lockTimer (sess w') = lockTimer (sess w) ->
  clipboardTimer (sess w') = Some (nextHandle (host w)) -> HInv w'.
Proof.
  intros (H1 & H2 & H3 & H4) Hc0 Ha Hn Hl Hc. unfold HInv.
  rewrite Hn, Hl, Hc, Ha. split; [|split; [|split]].
  - by apply nodup_fst_snoc.
  - intros x Hx. apply elem_of_app in Hx as [Hx|Hx].
    + apply H2 in Hx. lia.
    + apply list_elem_of_singleton in Hx as ->. simpl. lia.
  - intros id. rewrite H3, elem_of_app, list_elem_of_singleton. split.
    + intros Hin. by left.
    + intros [Hin|Heq]; [done|discriminate].
  - intros id. split.
    + intros [= <-]. exists d. apply elem_of_app. right. by left.
    + intros [d' Hd]. apply elem_of_app in Hd as [Hd|Hd].
      * assert (Hs : clipboardTimer (sess w) = Some id)
          by (apply H4; by exists d'). congruence.
      * apply list_elem_of_singleton in Hd. by injection Hd as ->.
Qed.

Lemma clear_sess w :
  sess (clearClipboard w) = with_clipboardTimer None (sess w).
Proof.
  destruct w as [st [u a la am lt ct cm] h]. unfold clearClipboard.
  by destruct ct.
Qed.

Lemma clear_hinv w : HInv w -> HInv (clearClipboard w).
Proof.
  intros HI. apply (hinv_drop_clip w); [exact HI| | | |].
  - unfold clearClipboard. by destruct (clipboardTimer (sess w)).
  - unfold clearClipboard. by destruct (clipboardTimer (sess w)).
  - by rewrite clear_sess.
  - by rewrite clear_sess.
Qed.

Lemma copy_sess text now w :
  sess (copyToClipboard text now w) =
  with_clipboardTimer (Some (nextHandle (host w))) (sess w).
Proof.
  unfold copyToClipboard. by destruct (clipboardTimer (sess w)).
Qed.

Lemma copy_hinv text now w : HInv w -> HInv (copyToClipboard text now w).
Proof.
  intros HI.
  set (h1 := match clipboardTimer (sess w) with
             | Some id => host_clear id (host_write_clipboard text (host w))
             | None => host_write_clipboard text (host w)
             end).
  set (w1 := mkWorld (store w) (with_clipboardTimer None (sess w)) h1).
  assert (H1 : HInv w1).
  { apply (hinv_drop_clip w); [exact HI| | |done|done];
      subst w1 h1; simpl; by destruct (clipboardTimer (sess w)). }
  assert (Hn : nextHandle h1 = nextHandle (host w))
    by (subst h1; by destruct (clipboardTimer (sess w))).
  apply (hinv_sched_clip w1 _
           (now + clipboardClearMinutes (sess w) * 60 * 1000));
    [exact H1|done| | | |].
  - unfold copyToClipboard. fold h1. done.
  - unfold copyToClipboard. fold h1. done.
  - by rewrite copy_sess.
  - rewrite copy_sess. simpl. by rewrite Hn.
Qed.

Lemma fire_is_clear id d w :
  HInv w -> (id, ClipboardClear d) ∈ active (host w) ->
  clipboardFire id w = clearClipboard w.
Proof.
  intros (_ & _ & _ & H4) Hin.
  assert (Hc : clipboardTimer (sess w) = Some id) by (apply H4; by exists d).
  unfold clipboardFire, clearClipboard. simpl. rewrite Hc.
  unfold host_clear, host_write_clipboard. simpl. by rewrite filter_idem.
Qed.

Lemma lock_sess w :
  sess (lock w) = with_lockTimer None (with_auth false (sess w)).
Proof. unfold lock. by rewrite stop_sess. Qed.

Lemma lock_hinv w : HInv w -> HInv (lock w).
Proof.
  intros HI. apply stop_hinv. by apply (hinv_ext w).
Qed.

Lemma sinv_intro w :
  HInv w ->
  (isAuthenticated (sess w) = true <-> lockTimer (sess w) <> None) ->
  (isAuthenticated (sess w) = true -> user (sess w) <> None) -> SInv w.
Proof. intros; unfold SInv; auto. Qed.

Lemma step_sinv w w' : step w w' -> SInv w -> SInv w'.
Proof.
  intros Hs HS. pose proof HS as (HI & Ha & Hu). destruct Hs as
    [lower e pw qs iso w r st' Hr | e pw now w r w' Hl | w | w
    | pw now w r w' Hun | now w | text now w | w | p w
    | e pw w r st' Hp | id now w Hin | id d w Hin].
  - apply sinv_intro; [by apply (hinv_ext w)|done|done].
  - unfold login in Hl. destruct (store w !! e) as [u|];
      [|injection Hl as _ <-; done].
    case_decide; [|injection Hl as _ <-; done].
    injection Hl as _ <-.
    destruct (start_sess (set_sess w (mkSession (Some u) true now
      (or_default (s_autoLockMinutes (settings u)) 5)
      (lockTimer (sess w)) (clipboardTimer (sess w))
      (or_default (s_clipboardClearMinutes (settings u)) 1)))) as [n Hn].
    apply sinv_intro; rewrite ?Hn; simpl; [|done|done].
    apply start_hinv. by apply (hinv_ext w).
  - unfold logout. apply sinv_intro.
    + apply clear_hinv, stop_hinv. by apply (hinv_ext w).
    + rewrite clear_sess, stop_sess. simpl. split; [done|]. by intros [].
    + rewrite clear_sess, stop_sess. done.
  - apply sinv_intro; [by apply lock_hinv| |]; rewrite lock_sess; simpl;
      [split; [done|by intros []]|done].
  - unfold unlock in Hun. destruct (user (sess w)) as [u|] eqn:Eu;
      [|injection Hun as _ <-; done].
    case_decide; [|injection Hun as _ <-; done].
    injection Hun as _ <-.
    destruct (start_sess (set_sess w (with_lastActivity now
      (with_auth true (sess w))))) as [n Hn].
    apply sinv_intro; rewrite ?Hn; simpl; [|done|by rewrite Eu].
    apply start_hinv. by apply (hinv_ext w).
  - apply sinv_intro; [by apply (hinv_ext w)|done|done].
  - apply sinv_intro; [by apply copy_hinv| |]; rewrite copy_sess; done.
  - apply sinv_intro; [by apply clear_hinv| |]; rewrite clear_sess; done.
  - unfold updateSettings. destruct (user (sess w)) as [u|];
      [|done].
    apply sinv_intro; [by apply (hinv_ext w)|done|done].
  - apply sinv_intro; [by apply (hinv_ext w)|done|done].
  - unfold autoLockTick. destruct (_ <=? _); [|done].
    apply sinv_intro.
    + apply (hinv_ext (lock w)); [by apply lock_hinv|done|done|done|done].
    + simpl. rewrite lock_sess. simpl. split; [done|]. by intros [].
    + simpl. rewrite lock_sess. done.
  - rewrite (fire_is_clear id d w HI Hin).
    apply sinv_intro; [by apply clear_hinv| |]; rewrite clear_sess; done.
Qed.

Lemma reachable_sinv w : reachable w -> SInv w.
Proof.
  induction 1 as [|w w' _ IH Hs].
  - unfold SInv, HInv. simpl. split; [|split; [|done]].
    + split; [constructor|]. split; [set_solver|].
      split; intros id; [split; [done|set_solver]|].
      split; [done|]. intros [d Hd]. set_solver.
    + split; [done|]. by intros [].
  - by apply (step_sinv w).
Qed.

End StrongTimerFacts.

Section SessionHelpers.

Lemma filter_none (P : nat * Timer -> Prop) `{!forall x, Decision (P x)}
    (l : list (nat * Timer)) :
  (forall x, x ∈ l -> ~ P x) -> filter P l = [].
Proof.
  induction l as [|x l IH]; intros Hn; [done|].
  rewrite filter_cons_False by (apply Hn; set_solver).
  apply IH. intros y Hy. apply Hn. set_solver.
Qed.

Lemma filter_filter_keep (P Q : nat * Timer -> Prop)
    `{!forall x, Decision (P x)} `{!forall x, Decision (Q x)}
    (l : list (nat * Timer)) :
  (forall x, x ∈ l -> P x -> Q x) -> filter P (filter Q l) = filter P l.
Proof.
  induction l as [|x l IH]; intros Hk; [done|].
  assert (IH' : filter P (filter Q l) = filter P l)
    by (apply IH; intros y Hy; apply Hk; set_solver).
  rewrite (filter_cons Q). destruct (decide (Q x)) as [Hq|Hq].
  - rewrite (filter_cons P x (filter Q l)), (filter_cons P x l).
    by rewrite IH'.
  - rewrite (filter_cons_False P x l); [exact IH'|].
    intros Hp. apply Hq, Hk; [set_solver|done].
Qed.

Lemma filter_single (P : nat * Timer -> Prop) `{!forall x, Decision (P x)}
    (l : list (nat * Timer)) (y : nat * Timer) :
  NoDup (fst <$> l) -> (forall x, x ∈ l -> P x -> fst x = fst y) ->
  y ∈ l -> P y -> filter P l = [y].
Proof.
  induction l as [|x l IH]; intros Hnd Hall Hy Hp; [set_solver|].
  simpl in Hnd. apply NoDup_cons in Hnd as [Hx Hnd].
  assert (Hfx : forall z, z ∈ l -> fst z <> fst x).
  { intros z Hz Hf. apply Hx. apply list_elem_of_fmap. exists z.
    split; [congruence|done]. }
  apply elem_of_cons in Hy as [->|Hy].
  - rewrite filter_cons_True by done. f_equal. apply filter_none.
    intros z Hz Hpz. apply (Hfx z Hz). apply Hall; [set_solver|done].
  - assert (Hnx : ~ P x).
    { intros Hpx. apply (Hfx y Hy). symmetry. apply Hall; [set_solver|done]. }
    rewrite filter_cons_False by done. apply IH; try done.
    intros z Hz Hpz. apply Hall; [set_solver|done].
Qed.

Lemma hinv_autolock w :
  HInv w ->
  (forall id, lockTimer (sess w) = Some id ->
     autoLockTimers (host w) = [(id, AutoLockCheck)]) /\
  (lockTimer (sess w) = None -> autoLockTimers (host w) = []).
Proof.
  intros (H1 & H2 & H3 & H4). split.
  - intros id Hid. unfold autoLockTimers.
    apply filter_single; [done| |by apply H3|done].
    intros [i t] Hin Ht. simpl in *. subst t. apply H3 in Hin. congruence.
  - intros Hn. unfold autoLockTimers. apply filter_none.
    intros [i t] Hin Ht. simpl in Ht. subst t. apply H3 in Hin. congruence.
Qed.

Lemma hinv_clip w :
  HInv w ->
  (forall id, clipboardTimer (sess w) = Some id ->
     exists d, clipboardTimers (host w) = [(id, ClipboardClear d)]) /\
  (clipboardTimer (sess w) = None -> clipboardTimers (host w) = []).
Proof.
  intros (H1 & H2 & H3 & H4). split.
  - intros id Hid. destruct (proj1 (H4 id) Hid) as [d Hd]. exists d.
    unfold clipboardTimers. apply filter_single; [done| |done|done].
    intros [i t] Hin Ht. simpl in *. destruct t as [|d']; [done|].
    assert (Hs : clipboardTimer (sess w) = Some i) by (apply H4; by exists d').
    congruence.
  - intros Hn. unfold clipboardTimers. apply filter_none.
    intros [i t] Hin Ht. simpl in Ht. destruct t as [|d']; [done|].
    assert (Hs : clipboardTimer (sess w) = Some i) by (apply H4; by exists d').
    congruence.
Qed.

Lemma start_fields w :
  let s' := sess (startAutoLockTimer w) in
  user s' = user (sess w) /\ isAuthenticated s' = isAuthenticated (sess w) /\
  lastActivity s' = lastActivity (sess w) /\
  autoLockMinutes s' = autoLockMinutes (sess w) /\
  clipboardTimer s' = clipboardTimer (sess w) /\
  clipboardClearMinutes s' = clipboardClearMinutes (sess w) /\
  lockTimer s' <> None.
Proof.
  destruct (start_sess w) as [n Hn]. cbv zeta. rewrite Hn. simpl.
  repeat split. discriminate.
Qed.

(** [clearClipboard] leaves the auto-lock check alone. *)
Lemma clear_autolock w :
  HInv w -> autoLockTimers (host (clearClipboard w)) = autoLockTimers (host w).
Proof.
  intros (H1 & _ & _ & H4). unfold clearClipboard, autoLockTimers.
  destruct (clipboardTimer (sess w)) as [c|] eqn:Ec; simpl; [|done].
  destruct (proj1 (H4 c) eq_refl) as [d0 Hd0].
  apply filter_filter_keep. intros [i t] Hi Ht. simpl in *. subst t.
  intros ->. pose proof (nodup_fst_unique _ _ _ _ H1 Hi Hd0). discriminate.
Qed.

Lemma unlock_ok_fields pw now w w2 :
  unlock pw now w = (Ok true, w2) ->
  user (sess w2) = user (sess w) /\ isAuthenticated (sess w2) = true /\
  lastActivity (sess w2) = now /\
  autoLockMinutes (sess w2) = autoLockMinutes (sess w) /\
  lockTimer (sess w2) <> None.
Proof.
  intros Hun. unfold unlock in Hun.
  destruct (user (sess w)) as [u|] eqn:Eu; [|discriminate].
  case_decide; [|discriminate]. injection Hun as <-.
  match goal with |- context [startAutoLockTimer ?w0] =>
    pose proof (start_fields w0) as (Hu2 & Ha2 & Hl2 & Hm2 & _ & _ & Ht2) end.
  simpl in *. rewrite Hu2, Ha2, Hl2, Hm2. done.
Qed.

Lemma reachable_demoLoggedIn : reachable demoLoggedIn.
Proof.
  assert (Hr : reachable (demoWorld (js "Secret1!"))).
  { eapply reach_step; [apply reach_init|]. eapply StRegister. reflexivity. }
  eapply reach_step; [exact Hr|]. unfold demoLoggedIn.
  apply (StLogin demoEmail (js "Secret1!") 1000 _
           (fst (login demoEmail (js "Secret1!") 1000 (demoWorld (js "Secret1!"))))).
  apply surjective_pairing.
Qed.

End SessionHelpers.

(** X1. In every reachable session state the session is authenticated
    exactly while one auto-lock check is running: when authenticated,
    exactly one auto-lock interval is active and [lockTimer] holds its
    handle; when not, [lockTimer] is null and no auto-lock interval is
    active. *)
Theorem auth_iff_autolock_running (w : World) :
  reachable w ->
  (isAuthenticated (sess w) = true ->
     exists id, lockTimer (sess w) = Some id /\
                autoLockTimers (host w) = [(id, AutoLockCheck)]) /\
  (isAuthenticated (sess w) = false ->
     lockTimer (sess w) = None /\ autoLockTimers (host w) = []).
Proof.
  intros Hr. destruct (reachable_sinv w Hr) as (HI & Ha & _).
  destruct (hinv_autolock w HI) as [Hs Hn]. split.
  - intros Hauth. destruct (lockTimer (sess w)) as [id|] eqn:E.
    + exists id. split; [done|]. by apply Hs.
    + exfalso. by apply Ha in Hauth.
  - intros Hauth. destruct (lockTimer (sess w)) as [id|] eqn:E.
    + exfalso. assert (Ht : isAuthenticated (sess w) = true)
        by (apply Ha; congruence). congruence.
    + split; [done|]. by apply Hn.
Qed.

Lemma auth_iff_autolock_running_witness :
  isAuthenticated (sess demoLoggedIn) = true /\
  exists id, lockTimer (sess demoLoggedIn) = Some id /\
             autoLockTimers (host demoLoggedIn) = [(id, AutoLockCheck)].
Proof.
  assert (Ha : isAuthenticated (sess demoLoggedIn) = true) by reflexivity.
  split; [exact Ha|].
  exact (proj1 (auth_iff_autolock_running demoLoggedIn reachable_demoLoggedIn) Ha).
Defined.

(** X2. In every reachable session state [checkAuth()]
    ([isAuthenticated && user !== null]) equals [isAuthenticated]: the
    session is never authenticated without a user. *)
Theorem checkAuth_reachable (w : World) :
  reachable w -> checkAuth w = isAuthenticated (sess w).
Proof.
  intros Hr. destruct (reachable_sinv w Hr) as (_ & _ & Hu). unfold checkAuth.
  destruct (isAuthenticated (sess w)) eqn:E; [|done]. simpl.
  apply bool_decide_eq_true. by apply Hu.
Qed.

Lemma checkAuth_reachable_witness :
  checkAuth demoLoggedIn = isAuthenticated (sess demoLoggedIn).
Proof. exact (checkAuth_reachable demoLoggedIn reachable_demoLoggedIn). Defined.

(** X3. In every reachable session state at most one clipboard-clear
    timeout is pending, and it is the one [clipboardTimer] holds: none
    when [clipboardTimer] is null. *)
Theorem clipboard_timeout_unique (w : World) :
  reachable w ->
  (clipboardTimer (sess w) = None -> clipboardTimers (host w) = []) /\
  (forall id, clipboardTimer (sess w) = Some id ->
     exists d, clipboardTimers (host w) = [(id, ClipboardClear d)]).
Proof.
  intros Hr. destruct (reachable_sinv w Hr) as (HI & _ & _).
  destruct (hinv_clip w HI) as [Hs Hn]. split; [exact Hn|exact Hs].
Qed.

Lemma clipboard_timeout_unique_witness :
  clipboardTimers (host demoLoggedIn) = [].
Proof.
  exact (proj1 (clipboard_timeout_unique demoLoggedIn reachable_demoLoggedIn)
           eq_refl).
Defined.



(** X5. When the pending clipboard-clear timeout of a reachable state
    fires, the clipboard is emptied, [clipboardTimer] becomes null and no
    clipboard-clear timeout is left; the auto-lock intervals, the
    authentication flag and the user are those before. *)
Theorem clipboard_fire_clears (id : nat) (d : Z) (w : World) :
  reachable w -> (id, ClipboardClear d) ∈ active (host w) ->
  clipboard (host (clipboardFire id w)) = [] /\
  clipboardTimer (sess (clipboardFire id w)) = None /\
  clipboardTimers (host (clipboardFire id w)) = [] /\
  autoLockTimers (host (clipboardFire id w)) = autoLockTimers (host w) /\
  isAuthenticated (sess (clipboardFire id w)) = isAuthenticated (sess w) /\
  user (sess (clipboardFire id w)) = user (sess w).
Proof.
  intros Hr Hin. pose proof (reachable_sinv w Hr) as (HI & _ & _).
  rewrite (fire_is_clear id d w HI Hin).
  pose proof (clear_hinv w HI) as HI'.
  split; [unfold clearClipboard; by destruct (clipboardTimer (sess w))|].
  split; [by rewrite clear_sess|].
  split; [apply (hinv_clip _ HI'); by rewrite clear_sess|].
  split; [by apply clear_autolock|].
  rewrite clear_sess. done.
Qed.

Lemma clipboard_fire_clears_witness :
  let w := copyToClipboard (js "pw") 2000 demoLoggedIn in
  (2%nat, ClipboardClear (2000 + 60000)) ∈ active (host w) /\
  clipboard (host (clipboardFire 2 w)) = [] /\
  clipboardTimer (sess (clipboardFire 2 w)) = None /\
  clipboardTimers (host (clipboardFire 2 w)) = [] /\
  autoLockTimers (host (clipboardFire 2 w)) = autoLockTimers (host w) /\
  isAuthenticated (sess (clipboardFire 2 w)) = isAuthenticated (sess w) /\
  user (sess (clipboardFire 2 w)) = user (sess w).
Proof.
  assert (Hr : reachable (copyToClipboard (js "pw") 2000 demoLoggedIn)).
  { eapply reach_step; [exact reachable_demoLoggedIn|]. apply StCopy. }
  assert (Hin : (2%nat, ClipboardClear (2000 + 60000))
                  ∈ active (host (copyToClipboard (js "pw") 2000 demoLoggedIn)))
    by (apply list_elem_of_In; vm_compute; auto).
  split; [exact Hin|].
  exact (clipboard_fire_clears 2 (2000 + 60000) _ Hr Hin).
Defined.

(** X6. From any reachable state, [lock()] clears the authentication
    flag and cancels the auto-lock interval ([lockTimer] null, none
    active), while the user stays bound and the pending clipboard clear,
    the clipboard and the store are left as they were. *)
Theorem lock_keeps_user_and_clipboard (w : World) :
  reachable w ->
  isAuthenticated (sess (lock w)) = false /\
  user (sess (lock w)) = user (sess w) /\
  lockTimer (sess (lock w)) = None /\
  autoLockTimers (host (lock w)) = [] /\
  clipboardTimer (sess (lock w)) = clipboardTimer (sess w) /\
  clipboardTimers (host (lock w)) = clipboardTimers (host w) /\
  clipboard (host (lock w)) = clipboard (host w) /\
  store (lock w) = store w.
Proof.
  intros Hr. pose proof (reachable_sinv w Hr) as (HI & _ & _).
  pose proof (lock_hinv w HI) as HI'.
  rewrite lock_sess. simpl.
  split; [done|]. split; [done|]. split; [done|].
  split; [apply (hinv_autolock _ HI'); by rewrite lock_sess|].
  split; [done|].
  destruct HI as (Hnd & _ & H3 & _).
  unfold lock, stopAutoLockTimer, clipboardTimers. simpl.
  destruct (lockTimer (sess w)) as [l|] eqn:El; simpl; [|done].
  split; [|done].
  assert (Hl : (l, AutoLockCheck) ∈ active (host w)) by (apply H3; done).
  apply filter_filter_keep. intros [i t] Hi Ht. simpl in *. intros ->.
  pose proof (nodup_fst_unique _ _ _ _ Hnd Hi Hl). congruence.
Qed.

Lemma lock_keeps_user_and_clipboard_witness :
  let w := copyToClipboard (js "pw") 2000 demoLoggedIn in
  isAuthenticated (sess (lock w)) = false /\
  user (sess (lock w)) = user (sess w) /\
  lockTimer (sess (lock w)) = None /\
  autoLockTimers (host (lock w)) = [] /\
  clipboardTimer (sess (lock w)) = clipboardTimer (sess w) /\
  clipboardTimers (host (lock w)) = clipboardTimers (host w) /\
  clipboard (host (lock w)) = clipboard (host w) /\
  store (lock w) = store w.
Proof.
  apply lock_keeps_user_and_clipboard.
  eapply reach_step; [exact reachable_demoLoggedIn|]. apply StCopy.
Defined.

(** X7. After a successful [login(e, pw)], [lock()] followed by
    [unlock(s)] succeeds exactly when [hashPassword(s)] equals
    [hashPassword(pw)]; [unlock(pw)] succeeds and restores an
    authenticated session with the same user and auto-lock minutes, the
    idle timestamp set to the unlock time and an auto-lock interval
    running. *)
Theorem lock_unlock_roundtrip (e pw : jsstr) (now now' : Z) (w w1 : World) :
  login e pw now w = (Ok true, w1) ->
  (forall s, fst (unlock s now' (lock w1)) = Ok true <->
             hashPassword s = hashPassword pw) /\
  exists w2, unlock pw now' (lock w1) = (Ok true, w2) /\
    user (sess w2) = user (sess w1) /\ isAuthenticated (sess w2) = true /\
    lastActivity (sess w2) = now' /\
    autoLockMinutes (sess w2) = autoLockMinutes (sess w1) /\
    lockTimer (sess w2) <> None.
Proof.
  intros Hl. unfold login in Hl. destruct (store w !! e) as [u|] eqn:Eu;
    [|discriminate].
  case_decide as Hd; [|discriminate]. injection Hl as <-.
  match goal with |- context [lock (startAutoLockTimer ?w0)] =>
    set (w1 := startAutoLockTimer w0);
    pose proof (start_fields w0) as (Hu1 & Ha1 & _ & Hm1 & _) end.
  fold w1 in Hu1, Ha1, Hm1. simpl in Hu1, Ha1, Hm1.
  assert (Hu : user (sess (lock w1)) = Some u) by (rewrite lock_sess; done).
  split.
  - intros s. unfold unlock. rewrite Hu.
    case_decide as Hd'; simpl; split; intros H; congruence.
  - assert (Hun : unlock pw now' (lock w1) =
                   (Ok true, snd (unlock pw now' (lock w1)))).
    { unfold unlock. rewrite Hu. rewrite decide_True by done. reflexivity. }
    eexists. split; [exact Hun|].
    destruct (unlock_ok_fields _ _ _ _ Hun) as (Hu2 & Ha2 & Hl2 & Hm2 & Ht2).
    rewrite lock_sess in Hu2, Hm2. unfold with_lockTimer, with_auth in Hu2, Hm2.
    cbn [user autoLockMinutes] in Hu2, Hm2.
    rewrite Hu2, Hm2. done.
Qed.

Lemma lock_unlock_roundtrip_witness :
  login demoEmail (js "Secret1!") 1000 (demoWorld (js "Secret1!")) =
    (Ok true, demoLoggedIn) /\
  exists w2, unlock (js "Secret1!") 5000 (lock demoLoggedIn) = (Ok true, w2) /\
    user (sess w2) = user (sess demoLoggedIn) /\
    isAuthenticated (sess w2) = true /\ lastActivity (sess w2) = 5000 /\
    autoLockMinutes (sess w2) = autoLockMinutes (sess demoLoggedIn) /\
    lockTimer (sess w2) <> None.
Proof.
  assert (Hl : login demoEmail (js "Secret1!") 1000 (demoWorld (js "Secret1!")) =
                 (Ok true, demoLoggedIn)) by reflexivity.
  split; [exact Hl|].
  exact (proj2 (lock_unlock_roundtrip _ _ _ 5000 _ _ Hl)).
Defined.

(** X8. After [logout()], [checkAuth()] is false, no user is bound, the
    clipboard is empty, neither timer field holds a handle, and
    [unlock] with any password fails with 'No user session' and changes
    nothing (unlike after [lock()]). *)
Theorem logout_ends_session (w : World) :
  checkAuth (logout w) = false /\ user (sess (logout w)) = None /\
  clipboard (host (logout w)) = [] /\
  lockTimer (sess (logout w)) = None /\
  clipboardTimer (sess (logout w)) = None /\
  forall pw now, unlock pw now (logout w) = (Err NoUserSession, logout w).
Proof.
  assert (Hs : sess (logout w) =
    with_clipboardTimer None (with_lockTimer None
      (with_auth false (with_user None (sess w))))).
  { unfold logout. rewrite clear_sess, stop_sess. done. }
  split; [unfold checkAuth; by rewrite Hs|].
  split; [by rewrite Hs|].
  split; [unfold logout, clearClipboard;
          by destruct (clipboardTimer _)|].
  split; [by rewrite Hs|]. split; [by rewrite Hs|].
  intros pw now. unfold unlock. by rewrite Hs.
Qed.

(** X9. A [login] or [unlock] that does not succeed leaves the whole
    state (store, session and timers) unchanged; [login] fails with
    'User not found' exactly when the email is not in the store, and
    [unlock] fails with 'No user session' exactly when no user is
    bound. *)
Theorem failed_login_unlock_unchanged (e pw : jsstr) (now : Z) (w : World) :
  (forall r w', login e pw now w = (r, w') -> r <> Ok true ->
     w' = w /\ (r = Err UserNotFound <-> store w !! e = None)) /\
  (forall r w', unlock pw now w = (r, w') -> r <> Ok true ->
     w' = w /\ (r = Err NoUserSession <-> user (sess w) = None)).
Proof.
  split.
  - intros r w' Hl Hr. unfold login in Hl.
    destruct (store w !! e) as [u|] eqn:Eu.
    + case_decide; injection Hl as <- <-; [done|].
      split; [done|]. split; [discriminate|done].
    + injection Hl as <- <-. done.
  - intros r w' Hl Hr. unfold unlock in Hl.
    destruct (user (sess w)) as [u|] eqn:Eu.
    + case_decide; injection Hl as <- <-; [done|].
      split; [done|]. split; [discriminate|done].
    + injection Hl as <- <-. done.
Qed.

(** X10. [updatePassword(e, np)] on a stored account: afterwards [login]
    of [e] with a secret [s] succeeds exactly when [hashPassword(s)]
    equals [hashPassword(np)]; the account keeps its email, security
    questions and settings; other accounts are untouched; and the
    session is not touched, so [unlock] of a session bound before the
    update still checks the digest bound at login. *)
Theorem updatePassword_then_login (e np : jsstr) (now : Z) (w : World) (u : User) :
  store w !! e = Some u ->
  (forall s, fst (login e s now
                    (mkWorld (snd (updatePassword e np (store w))) (sess w) (host w)))
             = Ok true <-> hashPassword s = hashPassword np) /\
  (exists u', snd (updatePassword e np (store w)) !! e = Some u' /\
     email u' = email u /\ securityQuestions u' = securityQuestions u /\
     settings u' = settings u) /\
  (forall e', e' <> e -> snd (updatePassword e np (store w)) !! e' = store w !! e') /\
  (forall s now', fst (unlock s now'
                         (mkWorld (snd (updatePassword e np (store w))) (sess w) (host w)))
                  = fst (unlock s now' w)).
Proof.
  intros Hu. unfold updatePassword. rewrite Hu. simpl.
  split; [|split; [|split]].
  - intros s. unfold login. simpl. rewrite lookup_insert_eq. simpl.
    case_decide as Hd; simpl; split; intros H; congruence.
  - eexists. split; [apply lookup_insert_eq|]. done.
  - intros e' Hne. by rewrite lookup_insert_ne by congruence.
  - intros s now'. unfold unlock. simpl.
    destruct (user (sess w)) as [v|]; [|done]. by case_decide.
Qed.

Lemma updatePassword_then_login_witness :
  store demoLoggedIn !! demoEmail =
    Some (mkUser demoEmail (hashPassword (js "Secret1!"))
            (map (fun q => mkSecQ (question q)
                            (register_answer_digest ascii_lower (answer q)))
               demoQuestions)
            (mkSettings 1 1) []) /\
  fst (login demoEmail (js "New2!")  3000
         (mkWorld (snd (updatePassword demoEmail (js "New2!") (store demoLoggedIn)))
            (sess demoLoggedIn) (host demoLoggedIn))) = Ok true.
Proof.
  assert (Hu : store demoLoggedIn !! demoEmail =
    Some (mkUser demoEmail (hashPassword (js "Secret1!"))
            (map (fun q => mkSecQ (question q)
                            (register_answer_digest ascii_lower (answer q)))
               demoQuestions)
            (mkSettings 1 1) [])) by (vm_compute; reflexivity).
  split; [exact Hu|].
  apply (proj2 (proj1 (updatePassword_then_login demoEmail (js "New2!") 3000
                         demoLoggedIn _ Hu) (js "New2!"))).
  reflexivity.
Defined.



(** X12. Registering an email twice: once [register] has succeeded for
    [e], a second [register] of [e] (with any password and questions)
    fails with 'Email already registered' and leaves the store, and so
    the first account, unchanged. *)
Theorem register_twice_rejected (lower : Z -> Z) (e pw pw2 iso iso2 : jsstr)
    (qs qs2 : list SecQ) (st st' : Store) :
  register lower e pw qs iso st = (Ok true, st') ->
  register lower e pw2 qs2 iso2 st' = (Err EmailAlreadyRegistered, st').
Proof.
  intros Hr. unfold register in Hr. destruct (st !! e); [discriminate|].
  injection Hr as <-. unfold register. by rewrite lookup_insert_eq.
Qed.

Lemma register_twice_rejected_witness :
  register ascii_lower demoEmail (js "Secret1!") demoQuestions [] ∅ =
    (Ok true, store (demoWorld (js "Secret1!"))) /\
  register ascii_lower demoEmail (js "Other") [] [] (store (demoWorld (js "Secret1!")))
    = (Err EmailAlreadyRegistered, store (demoWorld (js "Secret1!"))).
Proof.
  assert (Hr : register ascii_lower demoEmail (js "Secret1!") demoQuestions [] ∅ =
                 (Ok true, store (demoWorld (js "Secret1!")))) by reflexivity.
  split; [exact Hr|]. exact (register_twice_rejected _ _ _ _ _ _ _ _ _ _ Hr).
Defined.

(* ================================================================== *)
(** * Registration form and recovery: further properties *)

Section FormHelpers.

Lemma collect3 (q1 a1 q2 a2 q3 a3 : jsstr) (qs : list SecQ) :
  handleRegisterQuestions (q1, a1) (q2, a2) (q3, a3) = inr qs <->
  (q1 <> [] /\ trim a1 <> [] /\ q2 <> [] /\ trim a2 <> [] /\
   q3 <> [] /\ trim a3 <> [] /\ q1 <> q2 /\ q1 <> q3 /\ q2 <> q3) /\
  qs = [mkSecQ q1 (trim a1); mkSecQ q2 (trim a2); mkSecQ q3 (trim a3)].
Proof.
  unfold handleRegisterQuestions. simpl.
  repeat (case_bool_decide; simpl);
    rewrite ?elem_of_cons, ?list_elem_of_singleton, ?elem_of_nil in *;
    (split; [intros Hx; try discriminate|intros [Hv Hq]]);
    try (exfalso; intuition congruence).
  - injection Hx as <-. split; [intuition congruence|done].
  - by rewrite Hq.
Qed.

Lemma nodup3 (x y z : jsstr) : NoDup [x; y; z] <-> x <> y /\ x <> z /\ y <> z.
Proof.
  rewrite !NoDup_cons, !elem_of_cons, ?elem_of_nil.
  split.
  - intros (H1 & H2 & H3 & _). intuition congruence.
  - intros (H1 & H2 & H3). split; [intuition congruence|].
    split; [intuition congruence|]. split; [intuition|constructor].
Qed.

Lemma trim_start_split (s : jsstr) :
  exists l, forallb is_js_ws l = true /\ s = l ++ trim_start s.
Proof.
  induction s as [|c s IH]; simpl; [by exists []|].
  destruct (is_js_ws c) eqn:Ec.
  - destruct IH as (l & Hl & Hs). exists (c :: l). simpl. rewrite Ec, Hl.
    split; [done|]. simpl. by f_equal.
  - by exists [].
Qed.

Lemma trim_split (s : jsstr) :
  exists l r, forallb is_js_ws l = true /\ forallb is_js_ws r = true /\
              s = l ++ trim s ++ r.
Proof.
  destruct (trim_start_split s) as (l & Hl & Hs).
  destruct (trim_start_split (rev (trim_start s))) as (l' & Hl' & Hs').
  exists l, (rev l'). split; [done|]. split; [by rewrite forallb_rev|].
  unfold trim. rewrite Hs at 1. f_equal.
  set (t := trim_start s) in *. set (u := trim_start (rev t)) in *.
  rewrite <- (rev_involutive t) at 1. rewrite Hs'.
  by rewrite rev_app_distr.
Qed.

Lemma trim_lower_trim (lower : Z -> Z)
    (Hws : forall c, is_js_ws c = true -> is_js_ws (lower c) = true)
    (s : jsstr) :
  trim (toLowerCase lower (trim s)) = trim (toLowerCase lower s).
Proof.
  destruct (trim_split s) as (l & r & Hl & Hr & Hs).
  set (t := trim s) in *. clearbody t. subst s.
  symmetry. by apply normalize_pad.
Qed.

End FormHelpers.

(** X13. The question checks of the registration form ([handleRegister])
    pass exactly when all three questions are selected, all three
    answers are non-empty after [trim()], and the three questions are
    pairwise distinct; [register] then receives the three rows in order,
    each with its trimmed answer. *)
Theorem register_form_checks (q1 a1 q2 a2 q3 a3 : jsstr) :
  ((exists qs, handleRegisterQuestions (q1, a1) (q2, a2) (q3, a3) = inr qs) <->
   (q1 <> [] /\ trim a1 <> [] /\ q2 <> [] /\ trim a2 <> [] /\
    q3 <> [] /\ trim a3 <> []) /\ NoDup [q1; q2; q3]) /\
  (forall qs, handleRegisterQuestions (q1, a1) (q2, a2) (q3, a3) = inr qs ->
     map question qs = [q1; q2; q3] /\ map answer qs = [trim a1; trim a2; trim a3]).
Proof.
  split.
  - split.
    + intros [qs Hqs]. apply collect3 in Hqs as [Hv _].
      rewrite nodup3. tauto.
    + intros [Hv Hnd]. eexists. apply collect3. split; [|reflexivity].
      rewrite nodup3 in Hnd. tauto.
  - intros qs Hqs. apply collect3 in Hqs as [_ ->]. done.
Qed.

(** X14. An account created through the registration form holds exactly
    three security questions, pairwise distinct, in the order of the
    form: the form's checks supply what [register] itself does not
    check. *)
Theorem form_register_three_distinct (lower : Z -> Z) (e pw iso : jsstr)
    (q1 a1 q2 a2 q3 a3 : jsstr) (qs : list SecQ) (st st' : Store) :
  handleRegisterQuestions (q1, a1) (q2, a2) (q3, a3) = inr qs ->
  register lower e pw qs iso st = (Ok true, st') ->
  exists u, st' !! e = Some u /\
    map question (securityQuestions u) = [q1; q2; q3] /\
    NoDup (map question (securityQuestions u)).
Proof.
  intros Hc Hr. apply collect3 in Hc as [Hv ->].
  unfold register in Hr. destruct (st !! e); [discriminate|].
  injection Hr as <-. eexists. split; [apply lookup_insert_eq|]. simpl.
  split; [done|]. apply nodup3. tauto.
Qed.

Lemma form_register_three_distinct_witness :
  handleRegisterQuestions (js "Q1", js " ans1") (js "Q2", js "ans2")
    (js "Q3", js "ans3 ") = inr (demoQuestions) /\
  register ascii_lower demoEmail (js "Secret1!") demoQuestions [] ∅ =
    (Ok true, store (demoWorld (js "Secret1!"))) /\
  exists u, store (demoWorld (js "Secret1!")) !! demoEmail = Some u /\
    map question (securityQuestions u) = [js "Q1"; js "Q2"; js "Q3"] /\
    NoDup (map question (securityQuestions u)).
Proof.
  assert (Hc : handleRegisterQuestions (js "Q1", js " ans1") (js "Q2", js "ans2")
                 (js "Q3", js "ans3 ") = inr (demoQuestions))
    by (vm_compute; reflexivity).
  assert (Hr : register ascii_lower demoEmail (js "Secret1!") demoQuestions [] ∅ =
                 (Ok true, store (demoWorld (js "Secret1!")))) by reflexivity.
  split; [exact Hc|]. split; [exact Hr|].
  exact (form_register_three_distinct ascii_lower _ _ _ _ _ _ _ _ _ _ _ _ Hc Hr).
Defined.

(** X15. Registration through the form, then recovery with the same
    answers as typed: if the form's checks pass and [register] succeeds,
    then [initialize] on the stored questions succeeds on a manager whose
    hash function is the app's (whatever its state, locked or not), and
    [verify] with the three answers exactly as typed at registration
    (untrimmed) succeeds. The case mapping only has to send whitespace
    to whitespace. *)
Theorem register_then_recover (lower : Z -> Z)
    (Hws : forall c, is_js_ws c = true -> is_js_ws (lower c) = true)
    (e pw iso : jsstr) (q1 a1 q2 a2 q3 a3 : jsstr) (qs : list SecQ)
    (st st' : Store) (w : RecWorld) (now : Z) :
  handleRegisterQuestions (q1, a1) (q2, a2) (q3, a3) = inr qs ->
  register lower e pw qs iso st = (Ok true, st') ->
  hashFunction (mgr w) = Some app_recovery_hash ->
  exists u out w', st' !! e = Some u /\
    initializeW (securityQuestions u) w = (Ok out, w') /\
    fst (verify lower [a1; a2; a3] now w') = VerifySuccess.
Proof.
  intros Hc Hr Hhf. apply collect3 in Hc as [_ ->].
  unfold register in Hr. destruct (st !! e); [discriminate|].
  injection Hr as <-. eexists _, _, _. split; [apply lookup_insert_eq|].
  split.
  - unfold initializeW, initialize. simpl. rewrite Hhf. reflexivity.
  - unfold verify, handleRequest, handleRequestTraced, sqVerify. simpl.
    unfold register_answer_digest. rewrite !trim_lower_trim by exact Hws.
    rewrite !bool_decide_eq_true_2 by reflexivity. reflexivity.
Qed.

Lemma register_then_recover_witness :
  handleRegisterQuestions (js "Q1", js " ans1") (js "Q2", js "ans2")
    (js "Q3", js "ans3 ") = inr (demoQuestions) /\
  register ascii_lower demoEmail (js "Secret1!") demoQuestions [] ∅ =
    (Ok true, store (demoWorld (js "Secret1!"))) /\
  hashFunction (mgr appRecoveryWorld) = Some app_recovery_hash /\
  exists u out w', store (demoWorld (js "Secret1!")) !! demoEmail = Some u /\
    initializeW (securityQuestions u) appRecoveryWorld = (Ok out, w') /\
    fst (verify ascii_lower [js " ans1"; js "ans2"; js "ans3 "] 0 w') =
      VerifySuccess.
Proof.
  assert (Hc : handleRegisterQuestions (js "Q1", js " ans1") (js "Q2", js "ans2")
                 (js "Q3", js "ans3 ") = inr (demoQuestions))
    by (vm_compute; reflexivity).
  assert (Hr : register ascii_lower demoEmail (js "Secret1!") demoQuestions [] ∅ =
                 (Ok true, store (demoWorld (js "Secret1!")))) by reflexivity.
  assert (Hh : hashFunction (mgr appRecoveryWorld) = Some app_recovery_hash)
    by reflexivity.
  split; [exact Hc|]. split; [exact Hr|]. split; [exact Hh|].
  exact (register_then_recover ascii_lower ascii_lower_ws _ _ _ _ _ _ _ _ _ _ _ _
           appRecoveryWorld 0 Hc Hr Hh).
Defined.

(** X16. The chain [initialize] builds checks the answers at positions
    0, 1, 2 in that order against the first three stored digests, and
    stops at the first mismatch: it reports [failedAt] = position + 1,
    runs no later handler, and never looks at answers past position 2
    (nor at the stored pairs past the third). *)
Theorem chain_stops_at_first_failure (lower : Z -> Z) (q0 q1 q2 : SecQ)
    (rest : list SecQ) (m m' : RecoveryManager) (out : list (nat * jsstr))
    (hf : jsstr -> jsstr) (c : Chain) (answers : list jsstr) :
  hashFunction m = Some hf ->
  initialize (q0 :: q1 :: q2 :: rest) m = (Ok out, m') -> chain m' = Some c ->
  let ok (q : SecQ) (i : nat) :=
    bool_decide (hf (trim (toLowerCase lower (default [] (answers !! i))))
                 = answer q) in
  handleRequestTraced lower c answers =
    if negb (ok q0 0%nat) then (FailedAt 1, [0%nat])
    else if negb (ok q1 1%nat) then (FailedAt 2, [0%nat; 1%nat])
    else if negb (ok q2 2%nat) then (FailedAt 3, [0%nat; 1%nat; 2%nat])
    else (Passed, [0%nat; 1%nat; 2%nat]).
Proof.
  intros Hhf Hi Hc ok. simpl in Hi. rewrite Hhf in Hi.
  injection Hi as _ <-. simpl in Hc. injection Hc as <-.
  simpl. unfold sqVerify. simpl. subst ok. cbv beta zeta.
  destruct (bool_decide (hf (trim (toLowerCase lower
             (default [] (answers !! 0%nat)))) = answer q0)); simpl;
    [|reflexivity].
  destruct (bool_decide (hf (trim (toLowerCase lower
             (default [] (answers !! 1%nat)))) = answer q1)); simpl;
    [|reflexivity].
  destruct (bool_decide (hf (trim (toLowerCase lower
             (default [] (answers !! 2%nat)))) = answer q2)); reflexivity.
Qed.

Lemma chain_stops_at_first_failure_witness :
  handleRequestTraced ascii_lower demoChain
    [js "ans1"; js "nope"; js "ans3"; js "extra"] = (FailedAt 2, [0%nat; 1%nat]).
Proof.
  rewrite (chain_stops_at_first_failure ascii_lower
             (mkSecQ (js "Q1") (register_answer_digest ascii_lower (js "ans1")))
             (mkSecQ (js "Q2") (register_answer_digest ascii_lower (js "ans2")))
             (mkSecQ (js "Q3") (register_answer_digest ascii_lower (js "ans3")))
             [] (mgr appRecoveryWorld) (mgr demoRec0)
             (imap (fun i q => (i, question q)) demoStored) app_recovery_hash
             demoChain _ eq_refl eq_refl eq_refl).
  vm_compute. reflexivity.
Defined.

Section RecoveryInvariant.

Variable lower : Z -> Z.

Lemma filter_all_later (t : Z) (l : list Z) :
  existsb (fun d => d <=? t) l = false -> filter (fun d => t < d) l = l.
Proof.
  induction l as [|d l IH]; simpl; [done|].
  intros E. apply orb_false_iff in E as [E1 E2].
  rewrite filter_cons_True by lia. by rewrite IH.
Qed.

Lemma chain3_result (c : Chain) (answers : list jsstr) h1 h2 h3 :
  c = Link h1 (Link h2 (Last h3)) ->
  index h1 = 0%nat -> index h2 = 1%nat -> index h3 = 2%nat ->
  handleRequest lower c answers = Passed \/
  exists k, handleRequest lower c answers = FailedAt k /\ (1 <= k <= 3)%nat.
Proof.
  intros -> H1 H2 H3. unfold handleRequest. simpl. rewrite H1, H2, H3.
  destruct (sqVerify lower h1 _); simpl; [|right; eexists; split; [done|lia]].
  destruct (sqVerify lower h2 _); simpl; [|right; eexists; split; [done|lia]].
  destruct (sqVerify lower h3 _); simpl; [by left|right; eexists; split; [done|lia]].
Qed.

Lemma rec_step_inv w w' : rec_step lower w w' -> RecInv w -> RecInv w'.
Proof.
  intros Hs HI. destruct Hs as [qs w r w' Hi | answers now w | w | t w].
  - destruct w as [m tm]. unfold initializeW in Hi. simpl in Hi.
    destruct qs as [|a [|b [|d rest]]];
      try (injection Hi as _ <-; exact HI).
    simpl in Hi. destruct (hashFunction m) as [hf|];
      [|injection Hi as _ <-; exact HI].
    injection Hi as _ <-. destruct HI as [Hm _].
    unfold RecInv; simpl in *. split; [exact Hm|].
    split; [discriminate|]. split; [lia|]. right. eauto 7.
  - destruct w as [[ch qs att mx lk hfn] tm].
    destruct HI as (Hm & Hl & Hu & Hc); simpl in *. subst mx.
    unfold verify; simpl. destruct lk; simpl.
    { unfold RecInv; simpl. auto. }
    specialize (Hu eq_refl).
    destruct ch as [c|]; simpl; [|unfold RecInv; simpl; auto].
    destruct (handleRequest lower c answers); simpl;
      [unfold RecInv; simpl; auto|].
    destruct (3 <=? att + 1) eqn:E; simpl; unfold RecInv; simpl.
    + split; [done|]. split; [intros _; split; [lia|]|split; [discriminate|exact Hc]].
      destruct tm; discriminate.
    + split; [done|]. split; [discriminate|]. split; [lia|exact Hc].
  - destruct w as [[ch qs att mx lk hfn] tm].
    destruct HI as (Hm & _); simpl in *.
    unfold RecInv, resetW, reset; simpl. split; [done|].
    split; [discriminate|]. split; [lia|]. by left.
  - destruct w as [[ch qs att mx lk hfn] tm].
    destruct HI as (Hm & Hl & Hu & Hc); simpl in *.
    unfold RecInv, advance; simpl.
    destruct (existsb (fun d => d <=? t) tm) eqn:E; simpl.
    + split; [done|]. split; [discriminate|]. split; [lia|exact Hc].
    + rewrite filter_all_later by exact E. auto.
Qed.

Lemma rec_reachable_inv w : rec_reachable lower w -> RecInv w.
Proof.
  induction 1 as [|w w' _ IH Hs].
  - unfold RecInv; simpl. split; [done|]. split; [discriminate|].
    split; [lia|]. by left.
  - exact (rec_step_inv w w' Hs IH).
Qed.

End RecoveryInvariant.

(** X17. In every state app.js can bring its recovery manager to: the
    limit is 3 attempts; the manager is locked exactly when 3 attempts
    have been used; a locked manager always has a lockout timeout
    pending, so it unlocks, with the counter back to 0, once the clock
    reaches that timeout's deadline; and the message 'Question k
    incorrect. n attempts left.' always has 1 <= k <= 3 and n = 1 or 2. *)
Theorem recovery_lockout_invariant (lower : Z -> Z) (w : RecWorld) :
  rec_reachable lower w ->
  maxAttempts (mgr w) = 3 /\ 0 <= attempts (mgr w) <= 3 /\
  (locked (mgr w) = true <-> attempts (mgr w) = 3) /\
  (locked (mgr w) = true ->
     exists d, d ∈ lockTimers w /\
       forall t, d <= t ->
         locked (mgr (advance t w)) = false /\ attempts (mgr (advance t w)) = 0) /\
  (forall answers now k n,
     fst (verify lower answers now w) = QuestionIncorrect k n ->
     (1 <= k <= 3)%nat /\ 1 <= n <= 2).
Proof.
  intros Hr. apply rec_reachable_inv in Hr as (Hm & Hl & Hu & Hc).
  split; [exact Hm|]. split.
  { destruct (locked (mgr w)) eqn:E; [specialize (Hl eq_refl); lia|
      specialize (Hu eq_refl); lia]. }
  split.
  { destruct (locked (mgr w)) eqn:E; split; intros H; try done.
    - by apply Hl.
    - specialize (Hu eq_refl). lia. }
  split.
  { intros Hk. destruct (Hl Hk) as [_ Ht].
    destruct (lockTimers w) as [|d tm] eqn:Etm; [done|].
    exists d. split; [apply elem_of_cons; by left|].
    intros t Hdt. unfold advance. rewrite Etm. simpl.
    replace (d <=? t) with true by lia. simpl. done. }
  intros answers now k n. unfold verify.
  destruct (locked (mgr w)) eqn:E; [discriminate|].
  specialize (Hu eq_refl).
  destruct (chain (mgr w)) as [c|] eqn:Ec; [|discriminate].
  destruct Hc as [Hc|(h1 & h2 & h3 & Hc & H1 & H2 & H3)]; [congruence|].
  injection Hc as Hc.
  destruct (chain3_result lower c answers h1 h2 h3 Hc H1 H2 H3)
    as [Hp|(k' & Hk & Hk')]; rewrite ?Hp, ?Hk; [discriminate|].
  rewrite Hm. destruct (3 <=? attempts (mgr w) + 1) eqn:E3; simpl; [discriminate|].
  intros Hq. injection Hq as <- <-. split; [exact Hk'|lia].
Qed.

Lemma recovery_lockout_invariant_witness :
  rec_reachable ascii_lower demoLocked1 /\
  locked (mgr demoLocked1) = true /\
  (exists d, d ∈ lockTimers demoLocked1 /\
     forall t, d <= t ->
       locked (mgr (advance t demoLocked1)) = false /\
       attempts (mgr (advance t demoLocked1)) = 0).
Proof.
  assert (Hr : rec_reachable ascii_lower demoLocked1).
  { unfold demoLocked1, verifyW, demoRec0.
    repeat (eapply rec_reach_step; [|apply RecVerify]).
    eapply rec_reach_step; [apply rec_reach_init|].
    eapply RecInitialize. apply surjective_pairing. }
  assert (Hl : locked (mgr demoLocked1) = true) by (vm_compute; reflexivity).
  split; [exact Hr|]. split; [exact Hl|].
  exact (proj1 (proj2 (proj2 (proj2
           (recovery_lockout_invariant ascii_lower demoLocked1 Hr)))) Hl).
Defined.

(** X18. [reset()] (called when the recovery form is closed) drops the
    chain and the questions and clears the lock and the counter, but
    keeps the hash function and any pending lockout timeout: after it,
    [verify] answers 'Recovery not initialized' whatever the answers,
    until the next [initialize]. *)
Theorem reset_requires_initialize (lower : Z -> Z) (w : RecWorld)
    (answers : list jsstr) (now : Z) :
  verify lower answers now (resetW w) = (RecoveryNotInitialized, resetW w) /\
  questions (mgr (resetW w)) = [] /\ attempts (mgr (resetW w)) = 0 /\
  locked (mgr (resetW w)) = false /\
  hashFunction (mgr (resetW w)) = hashFunction (mgr w) /\
  lockTimers (resetW w) = lockTimers w.
Proof. repeat split. Qed.

Section MediatorFacts.

Lemma slot_plain (m : Handlers) (event : jsstr) :
  event ∉ objectProtoKeys ->
  slot m event = match m !! event with Some hs => Own hs | None => Absent end.
Proof.
  intros Hk. unfold slot. destruct (m !! event); [done|].
  by rewrite bool_decide_eq_false_2.
Qed.

Lemma slot_insert_ne (m : Handlers) (event event' : jsstr) (hs : list nat) :
  event' <> event -> slot (<[event := hs]> m) event' = slot m event'.
Proof. intros Hne. unfold slot. by rewrite lookup_insert_ne by congruence. Qed.

Lemma slot_insert_eq (m : Handlers) (event : jsstr) (hs : list nat) :
  slot (<[event := hs]> m) event = Own hs.
Proof. unfold slot. by rewrite lookup_insert_eq. Qed.

Lemma map_filter_calls {Data : Type} (hs : list nat) (handler : nat)
    (data : Data) (sender : option nat) :
  map (fun h => (h, data, sender)) (filter (fun h => h <> handler) hs) =
  filter (fun c : nat * Data * option nat => c.1.1 <> handler)
    (map (fun h => (h, data, sender)) hs).
Proof.
  induction hs as [|h hs IH]; simpl; [done|].
  destruct (decide (h = handler)) as [->|Hne].
  - rewrite !filter_cons_False by (simpl; congruence). exact IH.
  - rewrite !filter_cons_True by (simpl; congruence). simpl. by rewrite IH.
Qed.

Lemma filter_not_in (hs : list nat) (handler : nat) :
  handler ∉ hs -> filter (fun h => h <> handler) hs = hs.
Proof.
  induction hs as [|h hs IH]; intros Hn; [done|].
  rewrite elem_of_cons in Hn.
  rewrite filter_cons_True by (intros ->; apply Hn; by left).
  rewrite IH; [done|]. intros Hi; apply Hn; by right.
Qed.

Lemma no_proto_own_on (event : jsstr) (handler : nat) (m m' : Handlers) :
  (forall k, k ∈ objectProtoKeys -> m !! k = None) ->
  med_on event handler m = Some m' ->
  forall k, k ∈ objectProtoKeys -> m' !! k = None.
Proof.
  intros Hm Hon k Hk. unfold med_on, slot in Hon.
  destruct (m !! event) as [hs|] eqn:E.
  - injection Hon as <-. rewrite lookup_insert_ne; [by apply Hm|].
    intros ->. rewrite Hm in E by exact Hk. discriminate.
  - case_bool_decide as Hin; [discriminate|]. injection Hon as <-.
    rewrite lookup_insert_ne; [by apply Hm|]. intros ->. exact (Hin Hk).
Qed.

Lemma no_proto_own_off (event : jsstr) (handler : nat) (m m' : Handlers) :
  (forall k, k ∈ objectProtoKeys -> m !! k = None) ->
  med_off event handler m = Some m' ->
  forall k, k ∈ objectProtoKeys -> m' !! k = None.
Proof.
  intros Hm Hoff k Hk. unfold med_off, slot in Hoff.
  destruct (m !! event) as [hs|] eqn:E.
  - injection Hoff as <-. rewrite lookup_insert_ne; [by apply Hm|].
    intros ->. rewrite Hm in E by exact Hk. discriminate.
  - case_bool_decide as Hin; [discriminate|]. injection Hoff as <-.
    by apply Hm.
Qed.

Lemma med_reach_no_proto (m : Handlers) :
  med_reach m -> forall k, k ∈ objectProtoKeys -> m !! k = None.
Proof.
  induction 1 as [|event handler m m' _ IH Hon|event handler m m' _ IH Hoff].
  - intros k _. apply lookup_empty.
  - exact (no_proto_own_on event handler m m' IH Hon).
  - exact (no_proto_own_off event handler m m' IH Hoff).
Qed.

End MediatorFacts.

(** X19. [on(event, handler)] for an event name that is not a property of
    [Object.prototype] always returns; afterwards [notify] (and so
    [emit] and [Colleague.send]) on that event makes the same calls as
    before followed by one call of the new handler, in subscription
    order, and every other event is unaffected. *)
Theorem med_on_appends (event : jsstr) (handler : nat) (m : Handlers) :
  event ∉ objectProtoKeys ->
  exists m', med_on event handler m = Some m' /\
    (forall (Data : Type) sender (data : Data),
       med_notify sender event data m' =
         fmap (fun calls => calls ++ [(handler, data, sender)])
           (med_notify sender event data m)) /\
    (forall (Data : Type) event' sender (data : Data), event' <> event ->
       med_notify sender event' data m' = med_notify sender event' data m).
Proof.
  intros Hk. unfold med_on. rewrite slot_plain by exact Hk.
  destruct (m !! event) as [hs|] eqn:E; eexists; (split; [reflexivity|]);
    split; intros Data.
  - intros sender data. unfold med_notify.
    rewrite slot_insert_eq, slot_plain, E by exact Hk. simpl.
    by rewrite map_app.
  - intros event' sender data Hne. unfold med_notify.
    by rewrite slot_insert_ne by exact Hne.
  - intros sender data. unfold med_notify.
    rewrite slot_insert_eq, slot_plain, E by exact Hk. reflexivity.
  - intros event' sender data Hne. unfold med_notify.
    by rewrite slot_insert_ne by exact Hne.
Qed.

Lemma med_on_appends_witness :
  (js "toast" ∉ objectProtoKeys) /\
  (exists m', med_on (js "toast") 7 ∅ = Some m' /\
    (forall (Data : Type) sender (data : Data),
       med_notify sender (js "toast") data m' =
         fmap (fun calls => calls ++ [(7%nat, data, sender)])
           (med_notify sender (js "toast") data ∅)) /\
    (forall (Data : Type) event' sender (data : Data), event' <> js "toast" ->
       med_notify sender event' data m' = med_notify sender event' data ∅)).
Proof.
  assert (Hk : js "toast" ∉ objectProtoKeys)
    by (apply (bool_decide_unpack _); vm_compute; reflexivity).
  split; [exact Hk|]. exact (med_on_appends (js "toast") 7 ∅ Hk).
Defined.

(** X20. [off(event, handler)] for an event name that is not a property
    of [Object.prototype] always returns; afterwards [notify] on that
    event makes the same calls as before minus every call of that
    handler (all its subscriptions go at once), the others keeping their
    order, and every other event is unaffected. *)
Theorem med_off_removes (event : jsstr) (handler : nat) (m : Handlers) :
  event ∉ objectProtoKeys ->
  exists m', med_off event handler m = Some m' /\
    (forall (Data : Type) sender (data : Data),
       med_notify sender event data m' =
         fmap (filter (fun c : nat * Data * option nat => c.1.1 <> handler))
           (med_notify sender event data m)) /\
    (forall (Data : Type) event' sender (data : Data), event' <> event ->
       med_notify sender event' data m' = med_notify sender event' data m).
Proof.
  intros Hk. unfold med_off. rewrite slot_plain by exact Hk.
  destruct (m !! event) as [hs|] eqn:E; eexists; (split; [reflexivity|]);
    split; intros Data.
  - intros sender data. unfold med_notify.
    rewrite slot_insert_eq, slot_plain, E by exact Hk. simpl.
    by rewrite map_filter_calls.
  - intros event' sender data Hne. unfold med_notify.
    by rewrite slot_insert_ne by exact Hne.
  - intros sender data. unfold med_notify.
    rewrite slot_plain, E by exact Hk. reflexivity.
  - intros event' sender data Hne. reflexivity.
Qed.

Lemma med_off_removes_witness :
  (js "refresh" ∉ objectProtoKeys) /\
  (exists m', med_off (js "refresh") 3 (<[js "refresh" := [3%nat; 4%nat; 3%nat]]> ∅)
               = Some m' /\
    (forall (Data : Type) sender (data : Data),
       med_notify sender (js "refresh") data m' =
         fmap (filter (fun c : nat * Data * option nat => c.1.1 <> 3%nat))
           (med_notify sender (js "refresh") data (<[js "refresh" := [3%nat; 4%nat; 3%nat]]> ∅))) /\
    (forall (Data : Type) event' sender (data : Data), event' <> js "refresh" ->
       med_notify sender event' data m' =
         med_notify sender event' data (<[js "refresh" := [3%nat; 4%nat; 3%nat]]> ∅))).
Proof.
  assert (Hk : js "refresh" ∉ objectProtoKeys)
    by (apply (bool_decide_unpack _); vm_compute; reflexivity).
  split; [exact Hk|].
  exact (med_off_removes (js "refresh") 3 _ Hk).
Defined.

(** X21. Subscribing a handler that was not subscribed to an event (whose
    name is not a property of [Object.prototype]) and then unsubscribing
    it leaves every [notify] exactly as it was. *)
Theorem med_on_off_roundtrip (event : jsstr) (handler : nat) (m : Handlers) :
  event ∉ objectProtoKeys ->
  (forall hs, m !! event = Some hs -> handler ∉ hs) ->
  exists m1 m2, med_on event handler m = Some m1 /\
    med_off event handler m1 = Some m2 /\
    forall (Data : Type) event' sender (data : Data),
      med_notify sender event' data m2 = med_notify sender event' data m.
Proof.
  intros Hk Hn. unfold med_on. rewrite slot_plain by exact Hk.
  destruct (m !! event) as [hs|] eqn:E; eexists _, _;
    (split; [reflexivity|]); (split; [unfold med_off; rewrite slot_insert_eq; reflexivity|]);
    intros Data event' sender data; rewrite insert_insert_eq;
    (destruct (decide (event' = event)) as [->|Hne];
      [|unfold med_notify; by rewrite slot_insert_ne by exact Hne]);
    unfold med_notify; rewrite slot_insert_eq, slot_plain, E by exact Hk.
  - rewrite filter_app, filter_not_in by (by apply Hn).
    rewrite filter_cons_False by congruence. by rewrite filter_nil, app_nil_r.
  - rewrite filter_cons_False by congruence. by rewrite filter_nil.
Qed.

Lemma med_on_off_roundtrip_witness :
  (js "toast" ∉ objectProtoKeys) /\
  (forall hs, (<[js "toast" := [0%nat]]> ∅ : Handlers) !! js "toast" = Some hs ->
     1%nat ∉ hs) /\
  (exists m1 m2, med_on (js "toast") 1 (<[js "toast" := [0%nat]]> ∅) = Some m1 /\
    med_off (js "toast") 1 m1 = Some m2 /\
    forall (Data : Type) event' sender (data : Data),
      med_notify sender event' data m2 =
        med_notify sender event' data (<[js "toast" := [0%nat]]> ∅)).
Proof.
  assert (Hk : js "toast" ∉ objectProtoKeys)
    by (apply (bool_decide_unpack _); vm_compute; reflexivity).
  assert (Hn : forall hs, (<[js "toast" := [0%nat]]> ∅ : Handlers) !! js "toast"
                 = Some hs -> 1%nat ∉ hs).
  { intros hs. rewrite lookup_insert_eq. intros [= <-].
    rewrite elem_of_cons, elem_of_nil. lia. }
  split; [exact Hk|]. split; [exact Hn|].
  exact (med_on_off_roundtrip (js "toast") 1 _ Hk Hn).
Defined.

(** X22. An event name that is a property of [Object.prototype]
    ("constructor", "toString", "__proto__", ...) never becomes a
    subscribed event: on every [handlers] object the mediator can reach,
    [on], [off], [notify] and [emit] with such a name throw a
    [TypeError]. *)
Theorem med_proto_names_throw (m : Handlers) (event : jsstr) (handler : nat) :
  med_reach m -> event ∈ objectProtoKeys ->
  med_on event handler m = None /\ med_off event handler m = None /\
  (forall (Data : Type) sender (data : Data),
     med_notify sender event data m = None /\ med_emit event data m = None).
Proof.
  intros Hr Hk. pose proof (med_reach_no_proto m Hr event Hk) as Hm.
  assert (Hs : slot m event = Inherited).
  { unfold slot. rewrite Hm. by rewrite bool_decide_eq_true_2. }
  unfold med_on, med_off, med_emit, med_notify. rewrite Hs. auto.
Qed.

Lemma med_proto_names_throw_witness :
  let m : Handlers := <[js "refresh" := [1%nat]]> (<[js "toast" := [0%nat]]> ∅) in
  med_reach m /\ js "constructor" ∈ objectProtoKeys /\
  med_on (js "constructor") 2 m = None /\ med_off (js "constructor") 2 m = None /\
  (forall (Data : Type) sender (data : Data),
     med_notify sender (js "constructor") data m = None /\
     med_emit (js "constructor") data m = None).
Proof.
  intros m.
  assert (Hr : med_reach m).
  { apply (med_reach_on (js "refresh") 1 (<[js "toast" := [0%nat]]> ∅));
      [|vm_compute; reflexivity].
    apply (med_reach_on (js "toast") 0 ∅); [apply med_reach_init|].
    vm_compute; reflexivity. }
  assert (Hk : js "constructor" ∈ objectProtoKeys)
    by (apply (bool_decide_unpack _); vm_compute; reflexivity).
  split; [exact Hr|]. split; [exact Hk|].
  exact (med_proto_names_throw m (js "constructor") 2 Hr Hk).
Defined.

(** X23. A collision of [hashPassword]'s 32-bit fold between two
    secrets of the same length carries over to every extension of them
    by a common suffix: the digests agree, so [login] (which compares
    digests) treats the two extended secrets identically. *)
Theorem hash_collision_extends (s t r e : jsstr) (now : Z) (w : World) :
  fold_left hash_step s 0 = fold_left hash_step t 0 -> length s = length t ->
  hashPassword (s ++ r) = hashPassword (t ++ r) /\
  login e (s ++ r) now w = login e (t ++ r) now w.
Proof.
  intros Hf Hl.
  assert (Hh : hashPassword (s ++ r) = hashPassword (t ++ r)).
  { unfold hashPassword. by rewrite !fold_left_app, Hf, !length_app, Hl. }
  split; [exact Hh|]. unfold login. by rewrite Hh.
Qed.

Lemma hash_collision_extends_witness :
  fold_left hash_step (js "Aa") 0 = fold_left hash_step (js "BB") 0 /\
  length (js "Aa") = length (js "BB") /\
  hashPassword (js "AaSecret1!") = hashPassword (js "BBSecret1!") /\
  login demoEmail (js "AaSecret1!") 0 (demoWorld (js "AaSecret1!")) =
    login demoEmail (js "BBSecret1!") 0 (demoWorld (js "AaSecret1!")).
Proof.
  assert (Hf : fold_left hash_step (js "Aa") 0 = fold_left hash_step (js "BB") 0)
    by (vm_compute; reflexivity).
  assert (Hl : length (js "Aa") = length (js "BB")) by reflexivity.
  split; [exact Hf|]. split; [exact Hl|].
  exact (hash_collision_extends (js "Aa") (js "BB") (js "Secret1!") demoEmail 0
           (demoWorld (js "AaSecret1!")) Hf Hl).
Defined.

Section StrengthFacts.

Lemma nonempty_has_class (p : jsstr) :
  p <> [] -> has_upper p || has_lower p || has_digit p || has_other p = true.
Proof.
  destruct p as [|c r]; [done|intros _].
  unfold has_upper, has_lower, has_digit, has_other. simpl.
  destruct (is_upper c), (is_lower c), (is_digit c); simpl;
    rewrite ?orb_true_r; reflexivity.
Qed.

(** [analyze] as five independent criteria. *)
Lemma analyze_eq (p : jsstr) :
  let len := Z.of_nat (length p) in
  let sc := (if 12 <=? len then 25 else if 8 <=? len then 15 else 0)
            + (if has_upper p then 20 else 0) + (if has_lower p then 20 else 0)
            + (if has_digit p then 15 else 0) + (if has_other p then 20 else 0) in
  score (analyze p) = sc /\
  level (analyze p) = (if 80 <=? sc then Strong else if 60 <=? sc then Good
                       else if 40 <=? sc then Fair else Weak) /\
  (feedback (analyze p) = [] <->
     8 <= len /\ has_upper p = true /\ has_lower p = true /\
     has_digit p = true /\ has_other p = true).
Proof.
  intros len sc. subst sc. unfold analyze. fold len.
  destruct (12 <=? len) eqn:E12; [|destruct (8 <=? len) eqn:E8];
    destruct (has_upper p), (has_lower p), (has_digit p), (has_other p);
    simpl; (split; [lia|]); (split; [reflexivity|]);
    (split; [intros H; try discriminate; repeat split; lia
            |intros H; try reflexivity; exfalso; intuition (try discriminate; lia)]).
Qed.

End StrengthFacts.

(** X24. The strength score lies between 0 and 100; the feedback list is
    empty exactly when the password has at least 8 code units and an
    uppercase letter, a lowercase letter, a digit and another
    character, and the password is then rated 'strong'; the score is
    100 exactly when, in addition, it has at least 12 code units. *)
Theorem analyze_score_feedback (p : jsstr) :
  0 <= score (analyze p) <= 100 /\
  (feedback (analyze p) = [] <->
     (8 <= length p)%nat /\ has_upper p = true /\ has_lower p = true /\
     has_digit p = true /\ has_other p = true) /\
  (feedback (analyze p) = [] -> level (analyze p) = Strong) /\
  (score (analyze p) = 100 <->
     (12 <= length p)%nat /\ has_upper p = true /\ has_lower p = true /\
     has_digit p = true /\ has_other p = true).
Proof.
  destruct (analyze_eq p) as (Hs & Hl & Hf). cbv zeta in Hs, Hl, Hf.
  rewrite Hf, Hl, Hs.
  destruct (has_upper p), (has_lower p), (has_digit p), (has_other p);
    destruct (12 <=? Z.of_nat (length p)) eqn:E12;
    try destruct (8 <=? Z.of_nat (length p)) eqn:E8; simpl;
    repeat split; intros; destruct_and?; try discriminate; try lia.
Qed.

(** X25. A password of 12 or more code units is never rated 'weak',
    whatever its characters, so [handleRegister] accepts it without
    asking for confirmation. *)
Theorem analyze_long_never_weak (p : jsstr) :
  (12 <= length p)%nat -> level (analyze p) <> Weak.
Proof.
  intros Hlen. destruct (analyze_eq p) as (_ & Hl & _). cbv zeta in Hl.
  rewrite Hl.
  assert (Hne : p <> []) by (intros ->; simpl in Hlen; lia).
  pose proof (nonempty_has_class p Hne) as Hc.
  replace (12 <=? Z.of_nat (length p)) with true by lia.
  destruct (has_upper p), (has_lower p), (has_digit p), (has_other p);
    simpl in *; try discriminate; simpl; discriminate.
Qed.

Lemma analyze_long_never_weak_witness :
  (12 <= length (js "            "))%nat /\ level (analyze (js "            ")) <> Weak.
Proof.
  assert (H : (12 <= length (js "            "))%nat) by (simpl; lia).
  split; [exact H|exact (analyze_long_never_weak _ H)].
Defined.

(** X26. A password shorter than 8 code units is never rated 'strong'
    and always gets the feedback 'Use at least 8 characters'; it can
    still be rated 'good' (75 at most). *)
Theorem analyze_short_never_strong (p : jsstr) :
  (length p < 8)%nat ->
  score (analyze p) <= 75 /\ level (analyze p) <> Strong /\
  js "Use at least 8 characters" ∈ feedback (analyze p).
Proof.
  intros Hlen. unfold analyze.
  replace (12 <=? Z.of_nat (length p)) with false by lia.
  replace (8 <=? Z.of_nat (length p)) with false by lia.
  destruct (has_upper p), (has_lower p), (has_digit p), (has_other p);
    simpl; (split; [lia|]); (split; [discriminate|]);
    rewrite ?elem_of_cons; by left.
Qed.

Lemma analyze_short_never_strong_witness :
  (length (js "Ab1!") < 8)%nat /\ level (analyze (js "Ab1!")) = Good /\
  score (analyze (js "Ab1!")) <= 75 /\ level (analyze (js "Ab1!")) <> Strong /\
  js "Use at least 8 characters" ∈ feedback (analyze (js "Ab1!")).
Proof.
  assert (H : (length (js "Ab1!") < 8)%nat) by (simpl; lia).
  split; [exact H|]. split; [vm_compute; reflexivity|].
  exact (analyze_short_never_strong _ H).
Defined.

(** X27. The two strength checks of the app use different weights, but
    they agree one way: a password the analyzer rates 'good' or 'strong'
    is never reported as weak by the vault check of the security
    monitor. *)
Theorem analyze_good_not_flagged (p : jsstr) :
  level (analyze p) = Good \/ level (analyze p) = Strong ->
  checkPasswordStrength p = false.
Proof.
  destruct (analyze_eq p) as (_ & Hl & _). cbv zeta in Hl. rewrite Hl.
  unfold checkPasswordStrength, monitorScore.
  destruct (has_upper p), (has_lower p), (has_digit p), (has_other p);
    destruct (12 <=? Z.of_nat (length p)) eqn:E12;
    try destruct (8 <=? Z.of_nat (length p)) eqn:E8;
    destruct (8 <=? Z.of_nat (length p)) eqn:E8'; simpl;
    intros [H|H]; try discriminate; lia.
Qed.

Lemma analyze_good_not_flagged_witness :
  level (analyze (js "abcdefgh1!")) = Good /\
  checkPasswordStrength (js "abcdefgh1!") = false.
Proof.
  assert (H : level (analyze (js "abcdefgh1!")) = Good) by (vm_compute; reflexivity).
  split; [exact H|]. exact (analyze_good_not_flagged _ (or_introl H)).
Defined.

Section GeneratorFacts.

Variable rng : Rng.
Lemma swap_split (A : jsstr) y B x C :
  swap (A ++ y :: B ++ x :: C) (length A + S (length B)) (length A)
  = A ++ x :: B ++ y :: C.
Proof.
  unfold swap.
  rewrite !app_nth2 by lia. rewrite Nat.sub_diag.
  replace (length A + S (length B) - length A)%nat with (S (length B)) by lia.
  simpl. rewrite app_nth2 by lia. rewrite Nat.sub_diag. simpl.
  rewrite insert_app_r_alt by lia.
  replace (length A + S (length B) - length A)%nat with (S (length B)) by lia.
  simpl. rewrite insert_app_r_alt by lia. rewrite Nat.sub_diag. simpl.
  rewrite insert_app_r_alt by lia. rewrite Nat.sub_diag. done.
Qed.

Lemma split_two (l : jsstr) (i j : nat) :
  (j < i < length l)%nat ->
  exists A y B x C, l = A ++ y :: B ++ x :: C /\ length A = j /\
    length B = (i - j - 1)%nat.
Proof.
  intros Hij.
  assert (Hd : length (drop j l) = (length l - j)%nat) by apply length_drop.
  destruct (drop j l) as [|y r] eqn:D1; [simpl in Hd; lia|].
  assert (Hr : length (drop (i - j - 1) r) = (length r - (i - j - 1))%nat)
    by apply length_drop.
  destruct (drop (i - j - 1) r) as [|x C] eqn:D2; [simpl in *; lia|].
  exists (take j l), y, (take (i - j - 1) r), x, C.
  split; [|split; rewrite length_take; simpl in *; lia].
  rewrite <- (take_drop j l) at 1. rewrite D1. f_equal. f_equal.
  rewrite <- (take_drop (i - j - 1) r) at 1. by rewrite D2.
Qed.

Lemma swap_perm (l : jsstr) (i j : nat) :
  (j <= i < length l)%nat -> swap l i j ≡ₚ l.
Proof.
  intros Hij. destruct (decide (j = i)) as [->|Hne].
  - unfold swap. rewrite list_insert_insert_eq.
    destruct (lookup_lt_is_Some_2 l i) as [x Hx]; [lia|].
    rewrite (nth_lookup_Some l i 0 x Hx). by rewrite list_insert_id.
  - destruct (split_two l i j) as (A & y & B & x & C & -> & HA & HB); [lia|].
    replace i with (length A + S (length B))%nat by lia. subst j.
    rewrite swap_split. apply Permutation_app_head.
    rewrite <- !Permutation_middle. apply perm_swap.
Qed.

Lemma randomChar_in (str : jsstr) (pos : nat) :
  str <> [] -> fst (randomChar rng str pos) ∈ str.
Proof.
  intros Hne. unfold randomChar; simpl. apply list_elem_of_In, nth_In.
  assert (Hl : (0 < length str)%nat) by (destruct str; [done|simpl; lia]).
  pose proof (Z.mod_pos_bound (rng pos) (Z.of_nat (length str)) ltac:(lia)).
  lia.
Qed.

Lemma randomChars_spec (n : nat) (charset : jsstr) (pos : nat) :
  charset <> [] ->
  length (fst (randomChars rng n charset pos)) = n /\
  forall c, c ∈ fst (randomChars rng n charset pos) -> c ∈ charset.
Proof.
  intros Hne. revert pos. induction n as [|n IH]; intros pos; cbn [randomChars].
  - split; [done|]. intros c Hc. by apply elem_of_nil in Hc.
  - pose proof (randomChar_in charset pos Hne) as Hc.
    destruct (randomChar rng charset pos) as [c pos1]. simpl in Hc.
    destruct (IH pos1) as [IHl IHm].
    destruct (randomChars rng n charset pos1) as [rest pos2]. simpl in *.
    split; [lia|]. intros x Hx. apply elem_of_cons in Hx as [->|Hx]; auto.
Qed.

Lemma shuffle_loop_perm (i : nat) (arr : jsstr) (pos : nat) :
  (i < length arr \/ i = 0)%nat -> fst (shuffle_loop rng i arr pos) ≡ₚ arr.
Proof.
  revert arr pos. induction i as [|k IH]; intros arr pos Hi; simpl; [done|].
  set (j := Z.to_nat (rng pos mod Z.of_nat (S (S k)))).
  assert (Hj : (j <= S k)%nat).
  { pose proof (Z.mod_pos_bound (rng pos) (Z.of_nat (S (S k))) ltac:(lia)).
    subst j. lia. }
  assert (Hs : swap arr (S k) j ≡ₚ arr) by (apply swap_perm; lia).
  rewrite IH; [exact Hs|]. left. rewrite (Permutation_length Hs). lia.
Qed.

Lemma shuffle_perm (str : jsstr) (pos : nat) :
  fst (shuffle rng str pos) ≡ₚ str.
Proof.
  unfold shuffle. apply shuffle_loop_perm.
  destruct str; simpl; [right; lia|left; lia].
Qed.

Lemma addClass_spec (inc : bool) (chars cs req : jsstr) (pos : nat) :
  chars <> [] ->
  exists r pos',
    addClass rng inc chars (cs, req, pos) =
      (cs ++ (if inc then chars else []), req ++ r, pos') /\
    (inc = false -> r = []) /\ (inc = true -> exists c, r = [c] /\ c ∈ chars).
Proof.
  intros Hne. unfold addClass. destruct inc.
  - pose proof (randomChar_in chars pos Hne) as Hc.
    destruct (randomChar rng chars pos) as [c p']. simpl in Hc.
    exists [c], p'. split; [done|]. split; [done|]. eauto.
  - exists [], pos. rewrite !app_nil_r. split; [done|]. split; [done|].
    discriminate.
Qed.

End GeneratorFacts.

Section GeneratorResult.

Variable rng : Rng.

Lemma chars_nonempty :
  upperChars <> [] /\ lowerChars <> [] /\ numChars <> [] /\ symbolChars <> [].
Proof. repeat split; discriminate. Qed.

Lemma class_chars (c : Z) :
  (c ∈ upperChars -> is_upper c = true) /\
  (c ∈ lowerChars -> is_lower c = true) /\
  (c ∈ numChars -> is_digit c = true) /\
  (c ∈ symbolChars -> negb (is_upper c || is_lower c || is_digit c) = true).
Proof.
  assert (Hu : Forall (fun c => is_upper c = true) upperChars) by (repeat constructor).
  assert (Hl : Forall (fun c => is_lower c = true) lowerChars) by (repeat constructor).
  assert (Hd : Forall (fun c => is_digit c = true) numChars) by (repeat constructor).
  assert (Hs : Forall (fun c => negb (is_upper c || is_lower c || is_digit c) = true)
                 symbolChars) by (repeat constructor).
  rewrite Forall_forall in Hu, Hl, Hd, Hs. auto.
Qed.

Lemma elem_has (f : Z -> bool) (c : Z) (pw : jsstr) :
  c ∈ pw -> f c = true -> existsb f pw = true.
Proof.
  intros Hc Hf. apply existsb_exists. exists c. split; [|exact Hf].
  by apply list_elem_of_In.
Qed.

Lemma getResult_spec (b : PasswordBuilder) (pos : nat) :
  let u := includeUppercase b in let lo := includeLowercase b in
  let n := includeNumbers b in let sy := includeSymbols b in
  let k := ((if u then 1 else 0) + (if lo then 1 else 0) + (if n then 1 else 0)
            + (if sy then 1 else 0))%nat in
  let pw := fst (getResult rng b pos) in
  length pw = (fillCount (pb_length b) k + k)%nat /\
  (u = true -> has_upper pw = true) /\ (lo = true -> has_lower pw = true) /\
  (n = true -> has_digit pw = true) /\ (sy = true -> has_other pw = true) /\
  (forall c, c ∈ pw ->
     (u = true /\ c ∈ upperChars) \/ (lo = true /\ c ∈ lowerChars) \/
     (n = true /\ c ∈ numChars) \/ (sy = true /\ c ∈ symbolChars) \/
     (u = false /\ lo = false /\ n = false /\ sy = false /\ c ∈ lowerChars)).
Proof.
  intros u lo n sy k pw. subst pw. unfold getResult.
  destruct chars_nonempty as (Nu & Nl & Nn & Ns).
  destruct (addClass_spec rng u upperChars [] [] pos Nu) as (r1 & p1 & E1 & F1 & T1).
  fold u. rewrite E1.
  destruct (addClass_spec rng lo lowerChars ([] ++ (if u then upperChars else [])) ([] ++ r1) p1 Nl) as (r2 & p2 & E2 & F2 & T2).
  fold lo. rewrite E2.
  destruct (addClass_spec rng n numChars (([] ++ (if u then upperChars else [])) ++ (if lo then lowerChars else [])) (([] ++ r1) ++ r2) p2 Nn) as (r3 & p3 & E3 & F3 & T3).
  fold n. rewrite E3.
  destruct (addClass_spec rng sy symbolChars ((([] ++ (if u then upperChars else [])) ++ (if lo then lowerChars else [])) ++ (if n then numChars else [])) ((([] ++ r1) ++ r2) ++ r3) p3 Ns) as (r4 & p4 & E4 & F4 & T4).
  fold sy. rewrite E4. clearbody u lo n sy.
  set (cs := ((([] ++ (if u then upperChars else [])) ++ (if lo then lowerChars else []))
               ++ (if n then numChars else [])) ++ (if sy then symbolChars else [])).
  set (req := ((([] ++ r1) ++ r2) ++ r3) ++ r4).
  set (cs' := match cs with [] => lowerChars | _ :: _ => cs end).
  assert (Hlen : length req = k).
  { subst req k. rewrite !length_app.
    (destruct u; [destruct (T1 eq_refl) as (? & -> & _)|rewrite F1 by done]);
    (destruct lo; [destruct (T2 eq_refl) as (? & -> & _)|rewrite F2 by done]);
    (destruct n; [destruct (T3 eq_refl) as (? & -> & _)|rewrite F3 by done]);
    (destruct sy; [destruct (T4 eq_refl) as (? & -> & _)|rewrite F4 by done]);
    reflexivity. }
  assert (Hcs : cs' <> [] /\ forall c, c ∈ cs' ->
     (u = true /\ c ∈ upperChars) \/ (lo = true /\ c ∈ lowerChars) \/
     (n = true /\ c ∈ numChars) \/ (sy = true /\ c ∈ symbolChars) \/
     (u = false /\ lo = false /\ n = false /\ sy = false /\ c ∈ lowerChars)).
  { subst cs'. destruct cs as [|x l] eqn:Ecs.
    - split; [exact Nl|]. intros c Hc. right; right; right; right.
      subst cs. apply app_eq_nil in Ecs as [Ecs E4'].
      apply app_eq_nil in Ecs as [Ecs E3'].
      apply app_eq_nil in Ecs as [Ecs E2'].
      destruct u, lo, n, sy; done.
    - split; [discriminate|]. rewrite <- Ecs. subst cs. intros c Hc.
      rewrite !elem_of_app in Hc.
      destruct Hc as [[[[Hc|Hc]|Hc]|Hc]|Hc];
        [by apply elem_of_nil in Hc
        |destruct u; [left; done|by apply elem_of_nil in Hc]
        |destruct lo; [right; left; done|by apply elem_of_nil in Hc]
        |destruct n; [right; right; left; done|by apply elem_of_nil in Hc]
        |destruct sy; [right; right; right; left; done|by apply elem_of_nil in Hc]]. }
  destruct Hcs as [Hne Hcs].
  destruct (randomChars_spec rng (fillCount (pb_length b) (length req)) cs' p4 Hne)
    as [Hl Hm].
  destruct (randomChars rng (fillCount (pb_length b) (length req)) cs' p4)
    as [password p5]. simpl in Hl, Hm.
  pose proof (shuffle_perm rng (password ++ req) p5) as Hp.
  assert (Hin : forall c, c ∈ fst (shuffle rng (password ++ req) p5) <->
                          c ∈ password \/ c ∈ req).
  { intros c. rewrite Hp. apply elem_of_app. }
  assert (Hreq : forall c r, c ∈ r -> (r = r1 \/ r = r2 \/ r = r3 \/ r = r4) ->
                 c ∈ fst (shuffle rng (password ++ req) p5)).
  { intros c r Hc Hr. apply Hin. right. subst req.
    rewrite !elem_of_app. destruct Hr as [-> | [-> | [-> | ->]]]; tauto. }
  split; [|split; [|split; [|split; [|split]]]].
  - rewrite (Permutation_length Hp), length_app, Hl, Hlen. reflexivity.
  - intros Hu. destruct (T1 Hu) as (c & -> & Hc). apply (elem_has _ c).
    + apply (Hreq c [c]); [apply list_elem_of_singleton|]; auto.
    + by apply class_chars.
  - intros Hu. destruct (T2 Hu) as (c & -> & Hc). apply (elem_has _ c).
    + apply (Hreq c [c]); [apply list_elem_of_singleton|]; auto.
    + by apply class_chars.
  - intros Hu. destruct (T3 Hu) as (c & -> & Hc). apply (elem_has _ c).
    + apply (Hreq c [c]); [apply list_elem_of_singleton|]; auto.
    + by apply class_chars.
  - intros Hu. destruct (T4 Hu) as (c & -> & Hc).
    apply (elem_has (fun c => negb (is_upper c || is_lower c || is_digit c)) c).
    + apply (Hreq c [c]); [apply list_elem_of_singleton|]; auto.
    + by apply class_chars.
  - intros c Hc. apply Hin in Hc as [Hc|Hc]; [by apply Hcs, Hm|].
    subst req. rewrite !elem_of_app in Hc.
    destruct Hc as [[[[Hc|Hc]|Hc]|Hc]|Hc]; [by apply elem_of_nil in Hc| | | |].
    + destruct u; [|rewrite F1 in Hc by done; by apply elem_of_nil in Hc].
      destruct (T1 eq_refl) as (x & -> & Hx). apply list_elem_of_singleton in Hc.
      subst. left. done.
    + destruct lo; [|rewrite F2 in Hc by done; by apply elem_of_nil in Hc].
      destruct (T2 eq_refl) as (x & -> & Hx). apply list_elem_of_singleton in Hc.
      subst. right; left. done.
    + destruct n; [|rewrite F3 in Hc by done; by apply elem_of_nil in Hc].
      destruct (T3 eq_refl) as (x & -> & Hx). apply list_elem_of_singleton in Hc.
      subst. right; right; left. done.
    + destruct sy; [|rewrite F4 in Hc by done; by apply elem_of_nil in Hc].
      destruct (T4 eq_refl) as (x & -> & Hx). apply list_elem_of_singleton in Hc.
      subst. right; right; right; left. done.
Qed.

End GeneratorResult.

(** X28. The password generator as app.js drives it ([construct] with an
    integer length and the four check boxes): the password has exactly
    [Math.max(4, Math.min(64, length))] code units, contains at least
    one character of every selected class, and every character comes
    from a selected class (from the lowercase letters when none is
    selected), whatever values the random source returns. *)
Theorem generator_requirements (rng : Rng) (b0 : PasswordBuilder) (l : Z)
    (u lo n sy : bool) (pos : nat) :
  match construct rng (Some b0)
          (mkGenConfig (Some (Num l)) (Some u) (Some lo) (Some n) (Some sy)) pos with
  | Some (_, pw, _) =>
      length pw = Z.to_nat (Z.max 4 (Z.min 64 l)) /\
      (u = true -> has_upper pw = true) /\ (lo = true -> has_lower pw = true) /\
      (n = true -> has_digit pw = true) /\ (sy = true -> has_other pw = true) /\
      (forall c, c ∈ pw ->
         (u = true /\ c ∈ upperChars) \/ (lo = true /\ c ∈ lowerChars) \/
         (n = true /\ c ∈ numChars) \/ (sy = true /\ c ∈ symbolChars) \/
         (u = false /\ lo = false /\ n = false /\ sy = false /\ c ∈ lowerChars))
  | None => False
  end.
Proof.
  unfold construct. cbn [apply_opt cfg_length cfg_uppercase cfg_lowercase
    cfg_numbers cfg_symbols].
  set (b := withSymbols sy (withNumbers n (withLowercase lo (withUppercase u
              (setLength (Num l) (pb_reset b0)))))).
  pose proof (getResult_spec rng b pos) as Hs. cbv zeta in Hs.
  destruct (getResult rng b pos) as [pw pos'] eqn:E. simpl in Hs.
  subst b. cbn in Hs.
  destruct Hs as (Hl & Hs). split; [|exact Hs].
  rewrite Hl. destruct u, lo, n, sy; cbn; lia.
Qed.

(** X29. With a length that is [NaN] (what [parseInt] returns for a
    non-numeric field), [Math.max]/[Math.min] keep [NaN], the filling
    loop never runs, and the generated password consists of exactly one
    character per selected class; with no class selected it is empty. *)
Theorem generator_nan_length (rng : Rng) (b0 : PasswordBuilder)
    (u lo n sy : bool) (pos : nat) :
  match construct rng (Some b0)
          (mkGenConfig (Some NaN) (Some u) (Some lo) (Some n) (Some sy)) pos with
  | Some (_, pw, _) =>
      length pw = ((if u then 1 else 0) + (if lo then 1 else 0)
                   + (if n then 1 else 0) + (if sy then 1 else 0))%nat /\
      (u = true -> has_upper pw = true) /\ (lo = true -> has_lower pw = true) /\
      (n = true -> has_digit pw = true) /\ (sy = true -> has_other pw = true) /\
      (u = false -> lo = false -> n = false -> sy = false -> pw = [])
  | None => False
  end.
Proof.
  unfold construct. cbn [apply_opt cfg_length cfg_uppercase cfg_lowercase
    cfg_numbers cfg_symbols].
  set (b := withSymbols sy (withNumbers n (withLowercase lo (withUppercase u
              (setLength NaN (pb_reset b0)))))).
  pose proof (getResult_spec rng b pos) as Hs. cbv zeta in Hs.
  destruct (getResult rng b pos) as [pw pos'] eqn:E. simpl in Hs.
  subst b. cbn in Hs.
  destruct Hs as (Hl & Hu & Hlo & Hn & Hsy & _).
  split; [exact Hl|]. split; [exact Hu|]. split; [exact Hlo|].
  split; [exact Hn|]. split; [exact Hsy|].
  intros -> -> -> ->. simpl in Hl. by apply nil_length_inv.
Qed.
